(** * DataBatcher: a shallow embedding of [src/DataBatcher.js]

    The coordinator defers [load]/[save] requests, groups the pending
    queue into same-kind batches and hands each batch to a caller-supplied
    batch function.  The embedding keeps the shape of the JavaScript class:
    one record for the object's fields, one function per method, explicit
    state passing for the mutation of [this], a promise heap for the
    futures that the public methods return, and a log of the calls made to
    the two batch functions. *)

From stdpp Require Import gmap strings list pretty.

Open Scope string_scope.
Open Scope list_scope.
Open Scope nat_scope.

(** ** JavaScript values *)

(** [Number.MAX_SAFE_INTEGER], 2^53 - 1. *)
Definition MAX_SAFE_INTEGER : Z := 9007199254740991.

(** [Number.isSafeInteger]: the integers that a number holds exactly and
    that convert to a string as their decimal digits.  (From 2^53 on a number
    no longer holds every integer, and from 1e21 on its string is in exponent
    form.) *)
Definition isSafeInteger (z : Z) : bool :=
  (- MAX_SAFE_INTEGER <=? z)%Z && (z <=? MAX_SAFE_INTEGER)%Z.

(** Keys, saved values and batch results.  The numbers are the safe
    integers; [VError] is an object for which [instanceof Error] holds;
    [VObject] is a plain object without a [then] member. *)
Inductive Value :=
  | VUndefined
  | VNull
  | VBool (b : bool)
  | VNumber (z : Z) (safe : Is_true (isSafeInteger z))
  | VStr (s : string)
  | VError (msg : string)
  | VObject.

(** A number literal. *)
Abbreviation VNum z := (VNumber z I).

Global Instance Value_eq_dec : EqDecision Value.
Proof.
  refine (fun x y =>
    match x, y with
    | VUndefined, VUndefined | VNull, VNull | VObject, VObject => left _
    | VBool a, VBool b => cast_if (decide (a = b))
    | VNumber a _, VNumber b _ => cast_if (decide (a = b))
    | VStr a, VStr b => cast_if (decide (a = b))
    | VError a, VError b => cast_if (decide (a = b))
    | _, _ => right _
    end); try congruence; try done.
  subst. f_equal. apply proof_irrel.
Defined.

(** [`${v}`] and the conversion of [v] to a property key; for a safe
    integer these are its decimal digits, with a minus sign when negative. *)
Definition to_string (v : Value) : string :=
  match v with
  | VUndefined => "undefined"
  | VNull => "null"
  | VBool true => "true"
  | VBool false => "false"
  | VNumber z _ => pretty z
  | VStr s => s
  | VError msg => if bool_decide (msg = "") then "Error" else "Error: " +:+ msg
  | VObject => "[object Object]"
  end.

(** [x instanceof Error] *)
Definition instanceof_Error (v : Value) : bool :=
  match v with VError _ => true | _ => false end.

(** ** Batch functions *)

(** What a batch function is called with: [Array<key>] for the loader,
    [Array<[key, value]>] for the saver. *)
Inductive BatchArg :=
  | Keys (ks : list Value)
  | Pairs (kvs : list (Value * Value)).

(** What calling a batch function produces, as far as the coordinator can
    observe it. *)
Inductive Outcome :=
  | NotThenable (v : Value)          (* falsy, or without a [then] member *)
  | ResolvesArray (rs : list Value)  (* a promise of an array *)
  | ResolvesOther (v : Value)        (* a promise of something else *)
  | Rejects (e : Value)              (* a promise that rejects *)
  | Throws (e : Value).              (* the call itself throws *)

(** A batch function sees the calls made so far (it may be stateful) and
    its argument. *)
Definition BatchFn := list BatchArg -> BatchArg -> Outcome.

(** ** Constructor arguments *)

(** [this._options], field by field as the methods read them. *)
Record Options := {
  cache : Value;                          (* compared with [false] *)
  cacheKeyFn : option (Value -> Value);   (* [None]: absent *)
  maxBatchSize : option Z;                (* [None]: absent *)
}.

Definition empty_options : Options :=
  {| cache := VUndefined; cacheKeyFn := None; maxBatchSize := None |}.

Inductive Arg :=
  | AUndefined
  | ANull
  | ABool (b : bool)
  | ANumber (z : Z) (safe : Is_true (isSafeInteger z))
  | AStr (s : string)
  | AFun (src : string) (f : BatchFn)
  | AObj (o : Options).

(** A number literal as a constructor argument. *)
Abbreviation ANum z := (ANumber z I).

Inductive JsType := TyUndefined | TyObject | TyBoolean | TyNumber | TyString | TyFunction.

Global Instance JsType_eq_dec : EqDecision JsType.
Proof. solve_decision. Defined.

Definition typeof (x : Arg) : JsType :=
  match x with
  | AUndefined => TyUndefined
  | ANull => TyObject
  | ABool _ => TyBoolean
  | ANumber _ _ => TyNumber
  | AStr _ => TyString
  | AFun _ _ => TyFunction
  | AObj _ => TyObject
  end.

Definition isFunction (x : Arg) : bool := bool_decide (typeof x = TyFunction).
Definition isUndefined (x : Arg) : bool := bool_decide (typeof x = TyUndefined).
Definition isDefined (x : Arg) : bool := negb (bool_decide (typeof x = TyUndefined)).
Definition isObject (x : Arg) : bool := bool_decide (typeof x = TyObject).

(** [`${x}`] for a constructor argument. *)
Definition arg_to_string (x : Arg) : string :=
  match x with
  | AUndefined => "undefined"
  | ANull => "null"
  | ABool true => "true"
  | ABool false => "false"
  | ANumber z _ => pretty z
  | AStr s => s
  | AFun src _ => src
  | AObj _ => "[object Object]"
  end.

(** Truthiness, for [options || {}]. *)
Definition truthy (x : Arg) : bool :=
  match x with
  | AUndefined | ANull => false
  | ABool b => b
  | ANumber z _ => negb (z =? 0)%Z
  | AStr s => negb (bool_decide (s = ""))
  | AFun _ _ | AObj _ => true
  end.

(** What can be thrown: a [TypeError], or whatever a batch function threw
    or rejected with. *)
Inductive Exn :=
  | TypeError (msg : string)
  | Raised (e : Value).

Definition load_fn_message (got : Arg) : string :=
  "DataBatcher must be constructed with a batch load function which accepts " +:+
  "Array<key> and returns Promise<Array<value>>, but got: " +:+ arg_to_string got +:+ ".".

Definition save_fn_message (got : Arg) : string :=
  "DataBatcher must be constructed with a batch save function which accepts " +:+
  "Array<[key,value]> and returns Promise<Array<void>>, but got: " +:+ arg_to_string got +:+ ".".

Definition _prepareBatchLoadFn (batchLoadFn : Arg) : Exn + Arg :=
  if negb (isFunction batchLoadFn) then inl (TypeError (load_fn_message batchLoadFn))
  else inr batchLoadFn.

Definition _prepareBatchSaveFn (batchSaveFn options : Arg) : Exn + Arg :=
  if isUndefined options && isObject batchSaveFn then inr ANull
  else if isDefined batchSaveFn && negb (isFunction batchSaveFn)
       then inl (TypeError (save_fn_message batchSaveFn))
       else inr batchSaveFn.

Definition _prepareOptions (batchSaveFn options : Arg) : Arg :=
  let options := if isUndefined options && isObject batchSaveFn then batchSaveFn else options in
  if truthy options then options else AObj empty_options.

(** ** The coordinator and its runtime *)

(** The [type] member of a queued item: ['load'] or ['save']. *)
Inductive Kind := KLoad | KSave.

Global Instance Kind_eq_dec : EqDecision Kind.
Proof. solve_decision. Defined.

(** A queued item [{ resolve, reject, key, value, type }].  [resolve] and
    [reject] are the two closures of the promise [promise]. *)
Record PendingItem := {
  promise : nat;
  key : Value;
  value : option Value;
  type : Kind;
}.

Inductive PromiseState :=
  | Pending
  | Fulfilled (v : Value)
  | Rejected (e : Value).

(** The fields of [this] ([_batchLoadFn] ... [_queue]) followed by what the
    runtime holds: the promises created so far, the number of
    [process.nextTick] callbacks not yet run, and the calls made to the two
    batch functions, oldest first. *)
Record State := {
  _batchLoadFn : Arg;
  _batchSaveFn : Arg;
  _options : Arg;
  _loadCache : gmap string nat;
  _flushing : bool;
  _queue : list PendingItem;
  promises : gmap nat PromiseState;
  fresh : nat;
  nextTick : nat;
  calls : list BatchArg;
}.

Definition set_loadCache (c : gmap string nat) (st : State) : State :=
  {| _batchLoadFn := _batchLoadFn st; _batchSaveFn := _batchSaveFn st;
     _options := _options st; _loadCache := c; _flushing := _flushing st;
     _queue := _queue st; promises := promises st; fresh := fresh st;
     nextTick := nextTick st; calls := calls st |}.

Definition set_flushing (b : bool) (st : State) : State :=
  {| _batchLoadFn := _batchLoadFn st; _batchSaveFn := _batchSaveFn st;
     _options := _options st; _loadCache := _loadCache st; _flushing := b;
     _queue := _queue st; promises := promises st; fresh := fresh st;
     nextTick := nextTick st; calls := calls st |}.

Definition set_queue (q : list PendingItem) (st : State) : State :=
  {| _batchLoadFn := _batchLoadFn st; _batchSaveFn := _batchSaveFn st;
     _options := _options st; _loadCache := _loadCache st;
     _flushing := _flushing st; _queue := q; promises := promises st;
     fresh := fresh st; nextTick := nextTick st; calls := calls st |}.

Definition set_promises (h : gmap nat PromiseState) (st : State) : State :=
  {| _batchLoadFn := _batchLoadFn st; _batchSaveFn := _batchSaveFn st;
     _options := _options st; _loadCache := _loadCache st;
     _flushing := _flushing st; _queue := _queue st; promises := h;
     fresh := fresh st; nextTick := nextTick st; calls := calls st |}.

Definition set_fresh (n : nat) (st : State) : State :=
  {| _batchLoadFn := _batchLoadFn st; _batchSaveFn := _batchSaveFn st;
     _options := _options st; _loadCache := _loadCache st;
     _flushing := _flushing st; _queue := _queue st; promises := promises st;
     fresh := n; nextTick := nextTick st; calls := calls st |}.

Definition set_nextTick (n : nat) (st : State) : State :=
  {| _batchLoadFn := _batchLoadFn st; _batchSaveFn := _batchSaveFn st;
     _options := _options st; _loadCache := _loadCache st;
     _flushing := _flushing st; _queue := _queue st; promises := promises st;
     fresh := fresh st; nextTick := n; calls := calls st |}.

Definition set_calls (l : list BatchArg) (st : State) : State :=
  {| _batchLoadFn := _batchLoadFn st; _batchSaveFn := _batchSaveFn st;
     _options := _options st; _loadCache := _loadCache st;
     _flushing := _flushing st; _queue := _queue st; promises := promises st;
     fresh := fresh st; nextTick := nextTick st; calls := l |}.

(** The object as the constructor leaves it (lines 8-14), with nothing
    allocated, scheduled or called yet. *)
Definition new_state (loadFn saveFn options : Arg) : State :=
  {| _batchLoadFn := loadFn; _batchSaveFn := saveFn; _options := options;
     _loadCache := ∅; _flushing := false; _queue := [];
     promises := ∅; fresh := 0; nextTick := 0; calls := [] |}.

(** [new DataBatcher(batchLoadFn, batchSaveFn, options)]; an argument that
    is not given is [AUndefined]. *)
Definition constructor (batchLoadFn batchSaveFn options : Arg) : Exn + State :=
  match _prepareBatchLoadFn batchLoadFn with
  | inl e => inl e
  | inr loadFn =>
    match _prepareBatchSaveFn batchSaveFn options with
    | inl e => inl e
    | inr saveFn =>
      inr (new_state loadFn saveFn (_prepareOptions batchSaveFn options))
    end
  end.

(** Reading a member of [this._options]: only an options object has any of
    the three members. *)
Definition members (o : Arg) : Options :=
  match o with AObj o => o | _ => empty_options end.

(** ** The load cache *)

(** [this._loadCache] starts as the object literal [{}] (line 12), so a
    property read that finds no own property continues in
    [Object.prototype].  These are the names found there; every one of their
    values is truthy. *)
Definition Object_prototype : list string :=
  [ "constructor"; "__defineGetter__"; "__defineSetter__"; "hasOwnProperty";
    "__lookupGetter__"; "__lookupSetter__"; "isPrototypeOf";
    "propertyIsEnumerable"; "toString"; "valueOf"; "__proto__";
    "toLocaleString" ].

(** What [load] hands back: one of the coordinator's promises, or the
    member of [Object.prototype] that the cache read came across. *)
Inductive Returned :=
  | Promise (p : nat)
  | Inherited (name : string).

Global Instance Returned_eq_dec : EqDecision Returned.
Proof. solve_decision. Defined.

(** [this._loadCache[cacheKey]]; [None] is [undefined]. *)
Definition read_loadCache (c : gmap string nat) (cacheKey : Value) : option Returned :=
  match c !! to_string cacheKey with
  | Some p => Some (Promise p)
  | None =>
    if bool_decide (to_string cacheKey ∈ Object_prototype)
    then Some (Inherited (to_string cacheKey)) else None
  end.

(** [cacheKeyFn ? cacheKeyFn(key) : key] *)
Definition cacheKey_of (st : State) (k : Value) : Value :=
  match cacheKeyFn (members (_options st)) with
  | Some f => f k
  | None => k
  end.

(** [this._options.cache !== false] *)
Definition shouldCache (st : State) : bool :=
  negb (bool_decide (cache (members (_options st)) = VBool false)).

(** ** Enqueueing *)

(** The executor shared by [_loadLater] and [_saveLater]: push the item and
    ask for a flush when it is the only one and no flush is running. *)
Definition enqueue (k : Value) (v : option Value) (t : Kind) (st : State) : nat * State :=
  let p := fresh st in
  let st := set_fresh (S p) (set_promises (<[p := Pending]> (promises st)) st) in
  let st := set_queue (_queue st ++ [{| promise := p; key := k; value := v; type := t |}]) st in
  let st := if bool_decide (length (_queue st) = 1) && negb (_flushing st)
            then set_nextTick (S (nextTick st)) st else st in
  (p, st).

Definition _loadLater (k : Value) (st : State) : nat * State :=
  enqueue k None KLoad st.

Definition _saveLater (k v : Value) (st : State) : nat * State :=
  enqueue k (Some v) KSave st.

Definition load (k : Value) (st : State) : Returned * State :=
  let cacheKey := cacheKey_of st k in
  if shouldCache st then
    match read_loadCache (_loadCache st) cacheKey with
    | Some r => (r, st)
    | None =>
      let '(p, st) := _loadLater k st in
      (Promise p, set_loadCache (<[to_string cacheKey := p]> (_loadCache st)) st)
    end
  else
    let '(p, st) := _loadLater k st in (Promise p, st).

Definition save (k v : Value) (st : State) : nat * State :=
  let cacheKey := cacheKey_of st k in
  let st := set_loadCache (delete (to_string cacheKey) (_loadCache st)) st in
  _saveLater k v st.

(** [keys.map(this.load.bind(this))]: the loads in order; [Promise.all]
    then waits for the results collected here. *)
Fixpoint loadMany (keys : list Value) (st : State) : list Returned * State :=
  match keys with
  | [] => ([], st)
  | k :: keys =>
    let '(r, st) := load k st in
    let '(rs, st) := loadMany keys st in
    (r :: rs, st)
  end.

Fixpoint saveMany (saves : list (Value * Value)) (st : State) : list nat * State :=
  match saves with
  | [] => ([], st)
  | (k, v) :: saves =>
    let '(p, st) := save k v st in
    let '(ps, st) := saveMany saves st in
    (p :: ps, st)
  end.

(** ** Settling promises *)

(** [resolve(v)] and [reject(e)] act on a pending promise only. *)
Definition settle (p : nat) (s : PromiseState) (h : gmap nat PromiseState) : gmap nat PromiseState :=
  match h !! p with
  | Some Pending => <[p := s]> h
  | _ => h
  end.

Definition resolve (it : PendingItem) (v : Value) (h : gmap nat PromiseState) :=
  settle (promise it) (Fulfilled v) h.

Definition reject (it : PendingItem) (e : Value) (h : gmap nat PromiseState) :=
  settle (promise it) (Rejected e) h.

(** [batch.forEach(({ reject }) => reject(error))] *)
Definition reject_all (error : Value) (batch : list PendingItem) (h : gmap nat PromiseState) :=
  foldl (fun h it => reject it error h) h batch.

(** [batch.forEach(({ resolve, reject }, index) => ...)], from [index] on;
    [results[index]] past the end of [results] is [undefined]. *)
Fixpoint distribute (index : nat) (results : list Value) (batch : list PendingItem)
    (h : gmap nat PromiseState) : gmap nat PromiseState :=
  match batch with
  | [] => h
  | it :: batch =>
    let result := default VUndefined (results !! index) in
    distribute (S index) results batch
      (if instanceof_Error result then reject it result h else resolve it result h)
  end.

(** ** Checking what a batch function returned *)

(** The value a [_check...Result] promise resolves to: an [Error] it made,
    or the array. *)
Inductive Checked :=
  | CheckedError (e : Value)
  | CheckedArray (rs : list Value).

Definition _checkLoadResult (loadResultPromise : Outcome) (expectedLength : nat) : Exn + Checked :=
  match loadResultPromise with
  | NotThenable v =>
    inr (CheckedError (VError
      ("batchLoadFn must return Promise<Array<value>> but got: " +:+ to_string v)))
  | ResolvesOther loadResult =>
    inr (CheckedError (VError
      ("batchLoadFn must return Promise<Array<value>> but got: Promise<" +:+
       to_string loadResult +:+ ">")))
  | ResolvesArray loadResult =>
    if negb (bool_decide (length loadResult = expectedLength)) then
      inr (CheckedError (VError
        ("batchLoadFn must return Promise<Array<value>> of length " +:+
         pretty expectedLength +:+ " but got length: " +:+ pretty (length loadResult))))
    else inr (CheckedArray loadResult)
  | Rejects e => inl (Raised e)
  | Throws e => inl (Raised e)
  end.

Definition _checkSaveResult (saveResultPromise : Outcome) (expectedLength : nat) : Exn + Checked :=
  match saveResultPromise with
  | NotThenable v =>
    inr (CheckedError (VError
      ("batchSaveFn must return Promise<Array<any>> but got: " +:+ to_string v)))
  | ResolvesOther saveResult =>
    inr (CheckedError (VError
      ("batchSaveFn must return Promise<Array<any>> but got: Promise<" +:+
       to_string saveResult +:+ ">")))
  | ResolvesArray saveResult =>
    if negb (bool_decide (length saveResult = expectedLength)) then
      inr (CheckedError (VError
        ("batchSaveFn must return Promise<Array<any>> of length " +:+
         pretty expectedLength +:+ " but got length: " +:+ pretty (length saveResult))))
    else inr (CheckedArray saveResult)
  | Rejects e => inl (Raised e)
  | Throws e => inl (Raised e)
  end.

(** ** Dispatching a batch *)

(** Calling [this._batchLoadFn(...)] or [this._batchSaveFn(...)]: a member
    that is not a function cannot be called; every call made is logged. *)
Definition call (member : string) (fn : Arg) (arg : BatchArg) (st : State)
    : Exn * State + Outcome * State :=
  match fn with
  | AFun _ f =>
    let st' := set_calls (calls st ++ [arg]) st in
    match f (calls st) arg with
    | Throws e => inl (Raised e, st')
    | o => inr (o, st')
    end
  | _ => inl (TypeError ("this." +:+ member +:+ " is not a function"), st)
  end.

(** [[key, value]] of a queued save. *)
Definition entry (it : PendingItem) : Value * Value :=
  (key it, default VUndefined (value it)).

Definition finish (checked : Checked) (batch : list PendingItem) (st : State) : State :=
  match checked with
  | CheckedError error => set_promises (reject_all error batch (promises st)) st
  | CheckedArray results => set_promises (distribute 0 results batch (promises st)) st
  end.

(** An exception thrown before the results are handed out leaves every
    promise of the batch as it was. *)
Definition _batchLoad (batch : list PendingItem) (st : State) : Exn * State + State :=
  match call "_batchLoadFn" (_batchLoadFn st) (Keys (key <$> batch)) st with
  | inl (e, st) => inl (e, st)
  | inr (loadResultPromise, st) =>
    match _checkLoadResult loadResultPromise (length batch) with
    | inl e => inl (e, st)
    | inr loadResult => inr (finish loadResult batch st)
    end
  end.

Definition _batchSave (batch : list PendingItem) (st : State) : Exn * State + State :=
  match call "_batchSaveFn" (_batchSaveFn st) (Pairs (entry <$> batch)) st with
  | inl (e, st) => inl (e, st)
  | inr (saveResultPromise, st) =>
    match _checkSaveResult saveResultPromise (length batch) with
    | inl e => inl (e, st)
    | inr saveResult => inr (finish saveResult batch st)
    end
  end.

(** ** The flush loop *)

(** The [while] loop of [_flushQueue] (lines 117-123).  Reading [type] off
    [this._queue[batchSize]] past the end of the queue throws.  [fuel] bounds
    the number of turns; [_flushQueue] passes the queue's length, which is
    always enough ([scan_spec]). *)
Inductive Scan :=
  | ScanDone (batchSize : nat)
  | ScanThrows (e : Exn)
  | ScanOutOfFuel.

Fixpoint scan (fuel : nat) (queue : list PendingItem) (batchType : Kind)
    (maxBatchSize : Z) (batchSize : nat) : Scan :=
  if (Z.of_nat batchSize <? maxBatchSize)%Z then
    match queue !! batchSize with
    | None => ScanThrows (TypeError "Cannot read properties of undefined (reading 'type')")
    | Some it =>
      if bool_decide (type it = batchType) then
        match fuel with
        | 0 => ScanOutOfFuel
        | S fuel => scan fuel queue batchType maxBatchSize (S batchSize)
        end
      else ScanDone batchSize
    end
  else ScanDone batchSize.

(** Lines 110-113: [maxBatchSize] is used when truthy. *)
Definition effectiveMax (st : State) : Z :=
  let queueLength := Z.of_nat (length (_queue st)) in
  match maxBatchSize (members (_options st)) with
  | Some m => if (m =? 0)%Z then queueLength else Z.min m queueLength
  | None => queueLength
  end.

(** Lines 126-130: the batch goes to the method for its kind. *)
Definition dispatch (batchType : Kind) (batch : list PendingItem) (st : State)
    : Exn * State + State :=
  match batchType with
  | KLoad => _batchLoad batch st
  | KSave => _batchSave batch st
  end.

(** One run of the body of [_flushQueue], up to its call of itself. *)
Inductive Flush :=
  | Idle (st : State)                (* the queue was empty: return *)
  | Again (st : State)               (* a batch went out: [this._flushQueue()] *)
  | Crashed (e : Exn) (st : State)   (* an exception escaped: no further call *)
  | OutOfFuel.

Definition _flushQueue (st : State) : Flush :=
  match _queue st with
  | [] => Idle (set_flushing false st)
  | head :: _ =>
    let st := set_flushing true st in
    let queueLength := length (_queue st) in
    let maxBatchSize := effectiveMax st in
    let batchType := type head in
    match scan queueLength (_queue st) batchType maxBatchSize 1 with
    | ScanOutOfFuel => OutOfFuel
    | ScanThrows e => Crashed e st
    | ScanDone batchSize =>
      let batch := take batchSize (_queue st) in
      let st := set_queue (drop batchSize (_queue st)) st in
      match dispatch batchType batch st with
      | inl (e, st) => Crashed e st
      | inr st => Again st
      end
    end
  end.

(** [_flushQueue] with the calls of itself followed, as long as nobody
    enqueues in between; every turn takes at least one item off the queue, so
    one turn per item and one more are enough ([flush_returns]). *)
Fixpoint flush (fuel : nat) (st : State) : Flush :=
  match fuel with
  | 0 => OutOfFuel
  | S fuel =>
    match _flushQueue st with
    | Again st => flush fuel st
    | r => r
    end
  end.

(** The callback that [process.nextTick] runs. *)
Definition tick (st : State) : Flush :=
  flush (S (length (_queue st))) (set_nextTick (pred (nextTick st)) st).

(** ** Interleavings *)

(** What can happen to a coordinator, one step at a time: a caller loads
    or saves, or the flush loop runs one iteration. *)
Inductive Event :=
  | EvLoad (k : Value)
  | EvSave (k v : Value)
  | EvFlush.

Definition step (ev : Event) (st : State) : State :=
  match ev with
  | EvLoad k => (load k st).2
  | EvSave k v => (save k v st).2
  | EvFlush =>
    match _flushQueue st with
    | Idle st' | Again st' | Crashed _ st' => st'
    | OutOfFuel => st
    end
  end.

Definition run (evs : list Event) (st : State) : State :=
  foldl (fun st ev => step ev st) st evs.

(** The events that remove the cache entry stored under property [name]. *)
Definition saves_under (st : State) (name : string) (ev : Event) : Prop :=
  match ev with
  | EvSave k _ => to_string (cacheKey_of st k) = name
  | _ => False
  end.

(** ** Notions used in the statements *)

(** The argument a batch function receives for a batch of the given kind. *)
Definition batch_arg (t : Kind) (batch : list PendingItem) : BatchArg :=
  match t with
  | KLoad => Keys (key <$> batch)
  | KSave => Pairs (entry <$> batch)
  end.

(** The member of [this] that is called for a batch of the given kind. *)
Definition batch_fn (t : Kind) (st : State) : Arg :=
  match t with
  | KLoad => _batchLoadFn st
  | KSave => _batchSaveFn st
  end.

(** The longest prefix of [q] all of whose items have kind [t]. *)
Fixpoint homogeneous_prefix (t : Kind) (q : list PendingItem) : list PendingItem :=
  match q with
  | [] => []
  | it :: q => if bool_decide (type it = t) then it :: homogeneous_prefix t q else []
  end.

(** That prefix, capped at [cap] items. *)
Definition capped_prefix (t : Kind) (cap : Z) (q : list PendingItem) : list PendingItem :=
  take (Z.to_nat cap) (homogeneous_prefix t q).

(** A configured [maxBatchSize] is a positive integer. *)
Definition maxBatchSize_positive (st : State) : Prop :=
  ∀ m, maxBatchSize (members (_options st)) = Some m → (1 ≤ m)%Z.

(** A batch function that always hands back something the coordinator can
    wait for to the end: it neither throws nor rejects. *)
Definition answers (fn : Arg) : Prop :=
  ∃ src f, fn = AFun src f ∧
    ∀ log arg, match f log arg with Rejects _ | Throws _ => False | _ => True end.

(** The contract a validation error quotes. *)
Definition contract (t : Kind) : string :=
  match t with
  | KLoad => "batchLoadFn must return Promise<Array<value>>"
  | KSave => "batchSaveFn must return Promise<Array<any>>"
  end.

(** [ceil(n / m)] for a positive [m]. *)
Definition ceil_div (n m : Z) : Z := ((n + m - 1) / m)%Z.

(** The state of a promise settled with the result at its position. *)
Definition settled_with (result : Value) : PromiseState :=
  if instanceof_Error result then Rejected result else Fulfilled result.

(** Every promise of the batch is still pending. *)
Definition all_pending (batch : list PendingItem) (h : gmap nat PromiseState) : Prop :=
  ∀ it, it ∈ batch → h !! promise it = Some Pending.

(** The states the coordinator can be in: queued items hold distinct
    pending promises, and no promise is ahead of the allocation counter. *)
Record wf (st : State) : Prop := {
  wf_nodup : NoDup (promise <$> _queue st);
  wf_pending : all_pending (_queue st) (promises st);
  wf_heap : ∀ p, is_Some (promises st !! p) → p < fresh st;
  wf_cache : ∀ name p, _loadCache st !! name = Some p → p < fresh st;
}.

(** What dispatching a batch leaves alone: the configuration, the cache
    and the allocation counter. *)
Definition untouched (st st' : State) : Prop :=
  _batchLoadFn st' = _batchLoadFn st ∧ _batchSaveFn st' = _batchSaveFn st ∧
  _options st' = _options st ∧ _loadCache st' = _loadCache st ∧
  fresh st' = fresh st ∧ nextTick st' = nextTick st.

(** The state a [Flush] ended in. *)
Definition state_of (r : Flush) : option State :=
  match r with
  | Idle st | Again st | Crashed _ st => Some st
  | OutOfFuel => None
  end.

(** ** Batch functions and coordinators of the repository's tests *)

(** [async keys => keys] *)
Definition echo_loader : BatchFn := fun _ arg =>
  match arg with
  | Keys ks => ResolvesArray ks
  | Pairs kvs => ResolvesArray (fst <$> kvs)
  end.

(** [async writes => writes.map(() => undefined)] *)
Definition void_saver : BatchFn := fun _ arg =>
  match arg with
  | Keys ks => ResolvesArray (const VUndefined <$> ks)
  | Pairs kvs => ResolvesArray (const VUndefined <$> kvs)
  end.

(** [async () => [new Error('TEST')]] *)
Definition failing_loader : BatchFn := fun _ _ => ResolvesArray [VError "TEST"].


(** [new DataBatcher(loader)] with [loader] one of the functions above. *)
Definition load_only (src : string) (loader : BatchFn) : State :=
  new_state (AFun src loader) AUndefined (AObj empty_options).

(** [new DataBatcher(loader, saver)] *)
Definition load_save : State :=
  new_state (AFun "async keys => keys" echo_loader)
            (AFun "async writes => writes.map(() => undefined)" void_saver)
            (AObj empty_options).

(** [new DataBatcher(loader, { cacheKeyFn: () => 1 })] *)
Definition colliding : State :=
  new_state (AFun "async keys => keys" echo_loader) ANull
            (AObj {| cache := VUndefined; cacheKeyFn := Some (fun _ => VNum 1);
                     maxBatchSize := None |}).

(** [new DataBatcher(loader, { maxBatchSize: m })] *)
Definition limited (m : Z) : State :=
  new_state (AFun "async keys => keys" echo_loader) ANull
            (AObj {| cache := VUndefined; cacheKeyFn := None; maxBatchSize := Some m |}).

(** [loadMany([1, 2, 3, 4, 5])] on a coordinator with [maxBatchSize: 2]. *)
Definition five_loads : State :=
  (loadMany [VNum 1; VNum 2; VNum 3; VNum 4; VNum 5] (limited 2)).2.

(** [async keys => keys.map(k => k === 2 ? new Error('missing') : k)] *)
Definition partial_loader : BatchFn := fun _ arg =>
  match arg with
  | Keys ks =>
    ResolvesArray ((fun k => if decide (k = VNum 2) then VError "missing" else k) <$> ks)
  | Pairs kvs => ResolvesArray (fst <$> kvs)
  end.


(** [loadMany([1, 2, 3])] with the loader that fails for key 2. *)
Definition three_loads_partial : State :=
  (loadMany [VNum 1; VNum 2; VNum 3]
     (load_only "async keys => keys.map(k => k === 2 ? new Error('missing') : k)"
        partial_loader)).2.

(** The items that [saveMany(saves)] queues when the next promise is
    number [p]. *)
Fixpoint save_items (p : nat) (saves : list (Value * Value)) : list PendingItem :=
  match saves with
  | [] => []
  | (k, v) :: saves =>
    {| promise := p; key := k; value := Some v; type := KSave |} :: save_items (S p) saves
  end.

(** ** Notions used in the further properties *)

(** A caller's step: a [load] or a [save], not a turn of the flush loop. *)
Definition caller_event (ev : Event) : Prop :=
  match ev with
  | EvFlush => False
  | _ => True
  end.




(** The items that loads of [keys] queue when every one of them is queued
    and the next promise is number [p]. *)
Fixpoint load_items (p : nat) (keys : list Value) : list PendingItem :=
  match keys with
  | [] => []
  | k :: keys =>
    {| promise := p; key := k; value := None; type := KLoad |} :: load_items (S p) keys
  end.



(** The property names under which [saveMany(saves)] deletes. *)
Definition saved_names (st : State) (saves : list (Value * Value)) : list string :=
  (fun kv => to_string (cacheKey_of st kv.1)) <$> saves.

(** [async () => { throw new Error('down') }], a loader whose promise
    always rejects. *)
Definition rejecting_loader : BatchFn := fun _ _ => Rejects (VError "down").

(** [load(1)] on a coordinator with that loader, and the flush that
    [process.nextTick] runs, which the loader's rejection stops. *)
Definition stuck : State :=
  let st0 := load_only "async () => { throw new Error('down') }" rejecting_loader in
  default st0 (state_of (tick (load (VNum 1) st0).2)).


(** [loadMany([1, 2, 3])] on a coordinator with the loader [keys => keys]. *)
Definition three_loads : State :=
  run [EvLoad (VNum 1); EvLoad (VNum 2); EvLoad (VNum 3)]
      (load_only "async keys => keys" echo_loader).


(** * Properties *)

(** ** Values *)

(** The strings of numbers at the ends of the range and around zero. *)
Example to_string_numbers :
  to_string (VNum 9007199254740991) = "9007199254740991" ∧
  to_string (VNum (-9007199254740991)) = "-9007199254740991" ∧
  to_string (VNum 0) = "0" ∧ to_string (VNum (-1)) = "-1".
Proof. by vm_compute. Qed.

(** A number and the string of its digits name the same property. *)
Lemma to_string_number_digits (z : Z) (safe : Is_true (isSafeInteger z)) :
  to_string (VNumber z safe) = to_string (VStr (pretty z)).
Proof. reflexivity. Qed.

(** ** Construction *)

Section Construction.

Implicit Types batchLoadFn batchSaveFn options : Arg.

Lemma isFunction_spec x : isFunction x = true ↔ ∃ src f, x = AFun src f.
Proof.
  split.
  - destruct x; try discriminate; eauto.
  - intros (src & f & ->). reflexivity.
Qed.

Lemma constructor_load_fn_checked_first batchLoadFn batchSaveFn options :
  isFunction batchLoadFn = false →
  constructor batchLoadFn batchSaveFn options =
    inl (TypeError (load_fn_message batchLoadFn)).
Proof.
  intros H. unfold constructor, _prepareBatchLoadFn. by rewrite H.
Qed.

Lemma _prepareBatchSaveFn_throws batchSaveFn options :
  isDefined batchSaveFn = true →
  isDefined options = true ∨ isObject batchSaveFn = false →
  isFunction batchSaveFn = false →
  _prepareBatchSaveFn batchSaveFn options = inl (TypeError (save_fn_message batchSaveFn)).
Proof.
  intros Hdef Hnot Hfun. unfold _prepareBatchSaveFn.
  rewrite Hdef, Hfun. simpl.
  destruct Hnot as [Hopt | Hobj].
  - unfold isDefined in Hopt. unfold isUndefined.
    destruct (bool_decide (typeof options = TyUndefined)); [discriminate | done].
  - rewrite Hobj. by rewrite andb_false_r.
Qed.

Lemma _prepareBatchSaveFn_options batchSaveFn :
  isObject batchSaveFn = true →
  _prepareBatchSaveFn batchSaveFn AUndefined = inr ANull.
Proof. intros H. unfold _prepareBatchSaveFn. by rewrite H. Qed.

Lemma _prepareOptions_second batchSaveFn :
  isObject batchSaveFn = true →
  members (_prepareOptions batchSaveFn AUndefined) = members batchSaveFn.
Proof. destruct batchSaveFn; try discriminate; reflexivity. Qed.

Lemma constructor_options_second batchLoadFn batchSaveFn :
  isFunction batchLoadFn = true →
  isObject batchSaveFn = true →
  constructor batchLoadFn batchSaveFn AUndefined =
    inr (new_state batchLoadFn ANull (_prepareOptions batchSaveFn AUndefined)).
Proof.
  intros Hl Hobj. unfold constructor, _prepareBatchLoadFn. rewrite Hl. simpl.
  by rewrite (_prepareBatchSaveFn_options _ Hobj).
Qed.

End Construction.

(** C8.  Construction throws a [TypeError] naming the received value when
    the load function is not callable; it throws the save function's
    [TypeError] when the load function is callable and the second argument
    is defined, is not taken for the options (a third argument is defined,
    or the second is not of type object) and is not callable, and fails in
    that case whatever the load function is; and with a second argument of
    type object and no third argument it succeeds with no save function
    ([null]) and the second argument's members as the options. *)
Theorem constructor_validates (batchLoadFn batchSaveFn options : Arg) :
  (isFunction batchLoadFn = false →
     constructor batchLoadFn batchSaveFn options =
       inl (TypeError
         ("DataBatcher must be constructed with a batch load function which accepts " +:+
          "Array<key> and returns Promise<Array<value>>, but got: " +:+
          arg_to_string batchLoadFn +:+ "."))) ∧
  (isDefined batchSaveFn = true →
   isDefined options = true ∨ isObject batchSaveFn = false →
   isFunction batchSaveFn = false →
     (∃ e, constructor batchLoadFn batchSaveFn options = inl e) ∧
     (isFunction batchLoadFn = true →
        constructor batchLoadFn batchSaveFn options =
          inl (TypeError
            ("DataBatcher must be constructed with a batch save function which accepts " +:+
             "Array<[key,value]> and returns Promise<Array<void>>, but got: " +:+
             arg_to_string batchSaveFn +:+ ".")))) ∧
  (isFunction batchLoadFn = true →
   isObject batchSaveFn = true →
   options = AUndefined →
     ∃ st, constructor batchLoadFn batchSaveFn options = inr st ∧
           _batchLoadFn st = batchLoadFn ∧
           _batchSaveFn st = ANull ∧
           members (_options st) = members batchSaveFn ∧
           _loadCache st = ∅ ∧ _queue st = [] ∧ _flushing st = false).
Proof.
  split; [| split].
  - apply constructor_load_fn_checked_first.
  - intros Hdef Hnot Hfun.
    pose proof (_prepareBatchSaveFn_throws _ _ Hdef Hnot Hfun) as Hsave.
    assert (isFunction batchLoadFn = true →
            constructor batchLoadFn batchSaveFn options =
              inl (TypeError (save_fn_message batchSaveFn))) as Hok.
    { intros Hl. unfold constructor, _prepareBatchLoadFn. rewrite Hl. simpl.
      by rewrite Hsave. }
    split; [| exact Hok].
    destruct (isFunction batchLoadFn) eqn:Hl.
    + eexists. by apply Hok.
    + eexists. by apply constructor_load_fn_checked_first.
  - intros Hl Hobj ->.
    rewrite (constructor_options_second _ _ Hl Hobj).
    eexists. split; [reflexivity |]. simpl.
    repeat split. by apply _prepareOptions_second.
Qed.

(** The three cases at the arguments of the repository's own tests. *)
Lemma constructor_validates_witness :
  constructor (ABool false) AUndefined AUndefined =
    inl (TypeError
      ("DataBatcher must be constructed with a batch load function which accepts " +:+
       "Array<key> and returns Promise<Array<value>>, but got: false.")) ∧
  constructor (AFun "() => {}" (fun _ _ => NotThenable VUndefined)) (AObj empty_options)
      (AObj empty_options) =
    inl (TypeError
      ("DataBatcher must be constructed with a batch save function which accepts " +:+
       "Array<[key,value]> and returns Promise<Array<void>>, but got: [object Object].")) ∧
  ∃ st, constructor (AFun "() => {}" (fun _ _ => NotThenable VUndefined))
          (AObj {| cache := VBool false; cacheKeyFn := None; maxBatchSize := None |})
          AUndefined = inr st ∧
        _batchSaveFn st = ANull ∧ shouldCache st = false.
Proof.
  pose proof (constructor_validates (ABool false) AUndefined AUndefined) as (H1 & _ & _).
  pose proof (constructor_validates (AFun "() => {}" (fun _ _ => NotThenable VUndefined))
                (AObj empty_options) (AObj empty_options)) as (_ & H2 & _).
  pose proof (constructor_validates (AFun "() => {}" (fun _ _ => NotThenable VUndefined))
                (AObj {| cache := VBool false; cacheKeyFn := None; maxBatchSize := None |})
                AUndefined) as (_ & _ & H3).
  split; [| split].
  - apply H1. reflexivity.
  - apply H2; [reflexivity | left; reflexivity | reflexivity | reflexivity].
  - destruct H3 as (st & Hst & _ & Hsave & Hopts & _); [reflexivity .. |].
    exists st. split; [exact Hst |]. split; [exact Hsave |].
    unfold shouldCache. rewrite Hopts. reflexivity.
Defined.

(** The named coordinators are what the constructor returns for the
    arguments of the tests. *)
Example constructor_load_only src loader :
  constructor (AFun src loader) AUndefined AUndefined = inr (load_only src loader).
Proof. reflexivity. Qed.

Example constructor_load_save :
  constructor (AFun "async keys => keys" echo_loader)
              (AFun "async writes => writes.map(() => undefined)" void_saver)
              AUndefined = inr load_save.
Proof. reflexivity. Qed.

Example constructor_colliding :
  constructor (AFun "async keys => keys" echo_loader)
              (AObj {| cache := VUndefined; cacheKeyFn := Some (fun _ => VNum 1);
                       maxBatchSize := None |})
              AUndefined = inr colliding.
Proof. reflexivity. Qed.

Example constructor_limited m :
  constructor (AFun "async keys => keys" echo_loader)
              (AObj {| cache := VUndefined; cacheKeyFn := None; maxBatchSize := Some m |})
              AUndefined = inr (limited m).
Proof. reflexivity. Qed.

(** ** Frame lemmas *)

Section Frame.

Lemma untouched_refl st : untouched st st.
Proof. by repeat split. Qed.

Lemma untouched_trans st1 st2 st3 :
  untouched st1 st2 → untouched st2 st3 → untouched st1 st3.
Proof. unfold untouched. intros ? ?. intuition congruence. Qed.

Lemma call_inv member fn arg st :
  match call member fn arg st with
  | inl (_, st') => st' = st ∨ st' = set_calls (calls st ++ [arg]) st
  | inr (o, st') =>
    st' = set_calls (calls st ++ [arg]) st ∧
    ∃ src f, fn = AFun src f ∧ o = f (calls st) arg ∧
             match o with Throws _ => False | _ => True end
  end.
Proof.
  unfold call. destruct fn; try (by left).
  destruct (f (calls st) arg) eqn:Ho; try (by right); split; eauto 10.
Qed.

Lemma finish_untouched checked batch st : untouched st (finish checked batch st).
Proof. destruct checked; by repeat split. Qed.

Lemma finish_queue checked batch st : _queue (finish checked batch st) = _queue st.
Proof. by destruct checked. Qed.

Lemma finish_calls checked batch st : calls (finish checked batch st) = calls st.
Proof. by destruct checked. Qed.

Lemma finish_flushing checked batch st : _flushing (finish checked batch st) = _flushing st.
Proof. by destruct checked. Qed.

Lemma dispatch_unfold t batch st :
  dispatch t batch st =
  match call (match t with KLoad => "_batchLoadFn" | KSave => "_batchSaveFn" end)
             (batch_fn t st) (batch_arg t batch) st with
  | inl (e, st) => inl (e, st)
  | inr (o, st) =>
    match (match t with KLoad => _checkLoadResult | KSave => _checkSaveResult end)
            o (length batch) with
    | inl e => inl (e, st)
    | inr checked => inr (finish checked batch st)
    end
  end.
Proof. by destruct t. Qed.

(** Whatever happens to a batch, the object keeps its configuration, its
    cache and its queue. *)
Lemma dispatch_frame t batch st :
  match dispatch t batch st with
  | inl (_, st') | inr st' =>
    untouched st st' ∧ _queue st' = _queue st ∧ _flushing st' = _flushing st
  end.
Proof.
  rewrite dispatch_unfold.
  pose proof (call_inv (match t with KLoad => "_batchLoadFn" | KSave => "_batchSaveFn" end)
                (batch_fn t st) (batch_arg t batch) st) as Hc.
  destruct (call _ _ _ st) as [[e st'] | [o st']].
  - destruct Hc as [-> | ->]; by repeat split.
  - destruct Hc as (-> & _).
    destruct ((match t with KLoad => _checkLoadResult | KSave => _checkSaveResult end)
                o (length batch)) as [e | checked].
    + by repeat split.
    + split; [| split].
      * eapply untouched_trans; [| apply finish_untouched]. by repeat split.
      * by rewrite finish_queue.
      * by rewrite finish_flushing.
Qed.

Lemma _flushQueue_frame st :
  match state_of (_flushQueue st) with
  | Some st' => untouched st st'
  | None => True
  end.
Proof.
  unfold _flushQueue. destruct (_queue st) as [| head tl] eqn:Hq.
  - simpl. by repeat split.
  - destruct (scan _ _ _ _ _) as [batchSize | e |]; simpl; [| by repeat split | done].
    match goal with |- context [dispatch ?t ?b ?s] =>
      pose proof (dispatch_frame t b s) as Hd; destruct (dispatch t b s) as [[e s'] | s']
    end; simpl; destruct Hd as (Hu & _); exact Hu.
Qed.

Lemma enqueue_spec k v t st :
  ∃ st', enqueue k v t st = (fresh st, st') ∧
    _queue st' = _queue st ++ [{| promise := fresh st; key := k; value := v; type := t |}] ∧
    promises st' = <[fresh st := Pending]> (promises st) ∧
    fresh st' = S (fresh st) ∧
    _loadCache st' = _loadCache st ∧ _options st' = _options st ∧
    _batchLoadFn st' = _batchLoadFn st ∧ _batchSaveFn st' = _batchSaveFn st ∧
    _flushing st' = _flushing st ∧ calls st' = calls st.
Proof.
  unfold enqueue. eexists. split; [reflexivity |].
  match goal with |- context [if ?c then _ else _] => destruct c end;
    simpl; by repeat split.
Qed.

End Frame.

(** ** The load cache *)

Section Cache.

Implicit Types (st : State) (k v : Value) (name : string) (p : nat).

Lemma load_hit st k p :
  shouldCache st = true →
  _loadCache st !! to_string (cacheKey_of st k) = Some p →
  load k st = (Promise p, st).
Proof.
  intros Hc Hp. unfold load, read_loadCache. by rewrite Hc, Hp.
Qed.

Lemma load_inherited st k :
  shouldCache st = true →
  _loadCache st !! to_string (cacheKey_of st k) = None →
  to_string (cacheKey_of st k) ∈ Object_prototype →
  load k st = (Inherited (to_string (cacheKey_of st k)), st).
Proof.
  intros Hc Hp Hin. unfold load, read_loadCache.
  by rewrite Hc, Hp, bool_decide_eq_true_2.
Qed.

Lemma load_miss st k :
  shouldCache st = true →
  _loadCache st !! to_string (cacheKey_of st k) = None →
  to_string (cacheKey_of st k) ∉ Object_prototype →
  ∃ st', load k st = (Promise (fresh st), st') ∧
    _queue st' = _queue st ++
      [{| promise := fresh st; key := k; value := None; type := KLoad |}] ∧
    _loadCache st' = <[to_string (cacheKey_of st k) := fresh st]> (_loadCache st) ∧
    promises st' = <[fresh st := Pending]> (promises st) ∧
    fresh st' = S (fresh st) ∧ _options st' = _options st ∧
    _batchLoadFn st' = _batchLoadFn st ∧ _batchSaveFn st' = _batchSaveFn st ∧
    _flushing st' = _flushing st ∧ calls st' = calls st.
Proof.
  intros Hc Hp Hin. unfold load, read_loadCache, _loadLater.
  rewrite Hc, Hp, bool_decide_eq_false_2 by done.
  destruct (enqueue_spec k None KLoad st)
    as (st' & -> & Hq & Hh & Hf & Hl & Ho & Hlf & Hsf & Hfl & Hcs).
  eexists. split; [reflexivity |]. simpl. rewrite Hl. by repeat split.
Qed.

Lemma load_uncached st k :
  shouldCache st = false →
  ∃ st', load k st = (Promise (fresh st), st') ∧
    _queue st' = _queue st ++
      [{| promise := fresh st; key := k; value := None; type := KLoad |}] ∧
    _loadCache st' = _loadCache st.
Proof.
  intros Hc. unfold load, _loadLater. rewrite Hc.
  destruct (enqueue_spec k None KLoad st) as (st' & -> & Hq & _ & _ & Hl & _).
  eauto.
Qed.

Lemma save_spec st k v :
  ∃ st', save k v st = (fresh st, st') ∧
    _queue st' = _queue st ++
      [{| promise := fresh st; key := k; value := Some v; type := KSave |}] ∧
    _loadCache st' = delete (to_string (cacheKey_of st k)) (_loadCache st) ∧
    promises st' = <[fresh st := Pending]> (promises st) ∧
    fresh st' = S (fresh st) ∧ _options st' = _options st ∧
    _batchLoadFn st' = _batchLoadFn st ∧ _batchSaveFn st' = _batchSaveFn st ∧
    _flushing st' = _flushing st ∧ calls st' = calls st.
Proof.
  unfold save, _saveLater.
  destruct (enqueue_spec k (Some v) KSave
              (set_loadCache (delete (to_string (cacheKey_of st k)) (_loadCache st)) st))
    as (st' & -> & Hq & Hh & Hf & Hl & Ho & Hlf & Hsf & Hfl & Hcs).
  eexists. split; [reflexivity |]. by repeat split.
Qed.

(** No method changes [this._options]. *)
Lemma load_options st k : _options (load k st).2 = _options st.
Proof.
  unfold load, read_loadCache, _loadLater.
  destruct (enqueue_spec k None KLoad st) as (st' & -> & _ & _ & _ & _ & Ho & _).
  repeat case_match; simplify_eq/=; done.
Qed.

Lemma step_options ev st : _options (step ev st) = _options st.
Proof.
  destruct ev as [k | k v |]; unfold step.
  - apply load_options.
  - destruct (save_spec st k v) as (st' & -> & _ & _ & _ & _ & Ho & _). done.
  - pose proof (_flushQueue_frame st) as H.
    destruct (_flushQueue st); simpl in *; try done; by destruct H as (_ & _ & ? & _).
Qed.

Lemma run_options evs st : _options (run evs st) = _options st.
Proof.
  revert st. induction evs as [| ev evs IH]; intros st; [done |].
  simpl. fold (run evs (step ev st)). by rewrite IH, step_options.
Qed.

Lemma cacheKey_of_options st st' k :
  _options st' = _options st → cacheKey_of st' k = cacheKey_of st k.
Proof. unfold cacheKey_of. by intros ->. Qed.

Lemma shouldCache_options st st' :
  _options st' = _options st → shouldCache st' = shouldCache st.
Proof. unfold shouldCache. by intros ->. Qed.

(** A step that is not a save under [name] keeps the entry under [name]. *)
Lemma step_keeps_entry ev st name p :
  ¬ saves_under st name ev →
  _loadCache st !! name = Some p →
  _loadCache (step ev st) !! name = Some p.
Proof.
  intros Hev Hp. destruct ev as [k | k v |]; unfold step, saves_under in *.
  - unfold load, read_loadCache, _loadLater.
    destruct (enqueue_spec k None KLoad st) as (st' & -> & _ & _ & _ & Hl & _).
    repeat case_match; simplify_eq/=; try done.
    + rewrite lookup_insert_ne by congruence. by rewrite Hl.
    + by rewrite Hl.
  - destruct (save_spec st k v) as (st' & -> & _ & Hl & _). simpl.
    by rewrite Hl, lookup_delete_ne.
  - pose proof (_flushQueue_frame st) as H.
    destruct (_flushQueue st); simpl in *; try done;
      destruct H as (_ & _ & _ & Hl & _); by rewrite Hl.
Qed.

End Cache.

(** For a cache key that names nothing in [Object.prototype], and with
    caching on: [load] returns a promise; when the cache key has an entry, it
    is the promise of that entry and nothing changes, the queue included;
    when it has none, it is a new promise, stored under the cache key, and one
    item for the key is queued.  Any load that follows with a key of the same
    cache key returns that very promise and changes nothing, so the two loads
    share one queued item. *)
Lemma load_deduplicates (st : State) (k : Value) :
  shouldCache st = true →
  to_string (cacheKey_of st k) ∉ Object_prototype →
  ∃ p st1,
    load k st = (Promise p, st1) ∧
    _loadCache st1 !! to_string (cacheKey_of st k) = Some p ∧
    match _loadCache st !! to_string (cacheKey_of st k) with
    | Some q => p = q ∧ st1 = st
    | None =>
      p = fresh st ∧
      _queue st1 = _queue st ++
        [{| promise := fresh st; key := k; value := None; type := KLoad |}]
    end ∧
    ∀ k', to_string (cacheKey_of st k') = to_string (cacheKey_of st k) →
          load k' st1 = (Promise p, st1).
Proof.
  intros Hc Hin.
  destruct (_loadCache st !! to_string (cacheKey_of st k)) as [q |] eqn:Hq.
  - exists q, st. split; [by apply load_hit |]. split; [done |]. split; [done |].
    intros k' Hk'. apply load_hit; [done | by rewrite Hk'].
  - destruct (load_miss _ _ Hc Hq Hin) as (st1 & Hload & Hq1 & Hl & _ & _ & Ho & _).
    assert (_loadCache st1 !! to_string (cacheKey_of st k) = Some (fresh st)) as Hp1
      by (rewrite Hl; apply lookup_insert_eq).
    exists (fresh st), st1. split; [done |]. split; [done |]. split; [done |].
    intros k' Hk'. apply load_hit.
    + by rewrite (shouldCache_options _ _ Ho).
    + by rewrite (cacheKey_of_options _ _ _ Ho), Hk'.
Qed.

(** The test's [cacheKeyFn: () => 1]: [load(1)] gets promise 0 and queues
    one item; [load(2)] returns promise 0 and nothing is queued for it. *)
Example load_deduplicates_colliding :
  ∃ st1, load (VNum 1) colliding = (Promise 0, st1) ∧
         load (VNum 2) st1 = (Promise 0, st1) ∧ length (_queue st1) = 1.
Proof.
  destruct (load_deduplicates colliding (VNum 1)) as (p & st1 & Hload & _ & Hnew & Hnext).
  - reflexivity.
  - vm_compute. intros Hin. apply list_elem_of_In in Hin. simpl in Hin.
    repeat (destruct Hin as [Hin | Hin]; [discriminate Hin |]). exact Hin.
  - assert (_loadCache colliding !! to_string (cacheKey_of colliding (VNum 1)) = None)
      as Hnone by reflexivity.
    rewrite Hnone in Hnew. destruct Hnew as [-> Hq].
    exists st1. split; [exact Hload |]. split; [by apply Hnext |].
    rewrite Hq. reflexivity.
Qed.

(** C1, at a key the code gets wrong.  On the coordinator of the tests
    (echo loader, saver, no options, caching on) two calls of
    [load('toString')] in a row: the read of the cache, an object literal,
    finds [Object.prototype.toString] both times, so both calls return that
    function, no promise; no cache entry is made, nothing is queued, no flush
    is scheduled, and a flush calls no batch function: there is no fetch for
    the two loads to share. *)
Theorem load_twice_inherited_name :
  shouldCache load_save = true ∧
  load (VStr "toString") load_save = (Inherited "toString", load_save) ∧
  load (VStr "toString") (load (VStr "toString") load_save).2 =
    (Inherited "toString", load_save) ∧
  _loadCache load_save !! "toString" = None ∧
  _queue load_save = [] ∧ nextTick load_save = 0 ∧
  ∃ st', tick load_save = Idle st' ∧ calls st' = [].
Proof.
  split; [reflexivity |].
  split; [vm_compute; reflexivity |].
  split; [vm_compute; reflexivity |].
  split; [reflexivity |]. split; [reflexivity |]. split; [reflexivity |].
  eexists. split; [vm_compute; reflexivity | reflexivity].
Qed.

(** C9.  With caching on, an entry of the load cache survives every step
    that is not a [save] under its cache key: loads, saves under other cache
    keys and iterations of the flush loop, whether the batch resolves, is
    rejected item by item or as a whole, or the batch function throws.  After
    any such steps a [load] whose key has that cache key returns the promise
    of the entry and changes nothing. *)
Theorem cache_entry_persists (st : State) (name : string) (p : nat) (evs : list Event) :
  shouldCache st = true →
  _loadCache st !! name = Some p →
  Forall (fun ev => ¬ saves_under st name ev) evs →
  _loadCache (run evs st) !! name = Some p ∧
  ∀ k, to_string (cacheKey_of st k) = name →
       load k (run evs st) = (Promise p, run evs st).
Proof.
  intros Hc Hp Hevs.
  assert (_loadCache (run evs st) !! name = Some p) as Hrun.
  { revert st Hc Hp Hevs. induction evs as [| ev evs IH]; intros st Hc Hp Hevs; [done |].
    apply Forall_cons in Hevs as [Hev Hevs].
    simpl. fold (run evs (step ev st)). apply IH.
    - by rewrite (shouldCache_options _ _ (step_options ev st)).
    - by apply step_keeps_entry.
    - eapply Forall_impl; [exact Hevs |]. intros [k | k v |] Hn; simpl in *; try done.
      by rewrite (cacheKey_of_options _ _ _ (step_options ev st)). }
  split; [exact Hrun |]. intros k <-.
  apply load_hit.
  - by rewrite (shouldCache_options _ _ (run_options evs st)).
  - by rewrite (cacheKey_of_options _ _ _ (run_options evs st)).
Qed.

(** The loader of the test that returns [[new Error('TEST')]]: the promise
    of [load(1)] is rejected by the flush, stays in the cache through a save
    of another key and further flushes, and is what the next [load(1)]
    returns. *)
Lemma cache_entry_persists_witness :
  let st1 := (load (VNum 1) (load_only "async () => [new Error('TEST')]" failing_loader)).2 in
  let st2 := run [EvFlush; EvSave (VNum 2) VNull; EvFlush; EvFlush] st1 in
  promises st2 !! 0 = Some (Rejected (VError "TEST")) ∧
  load (VNum 1) st2 = (Promise 0, st2).
Proof.
  intros st1 st2. split; [reflexivity |].
  refine (proj2 (cache_entry_persists st1 "1" 0
                   [EvFlush; EvSave (VNum 2) VNull; EvFlush; EvFlush] _ _ _) (VNum 1) _).
  - reflexivity.
  - reflexivity.
  - repeat constructor; simpl; try tauto. discriminate.
  - reflexivity.
Defined.

(** ** Settling the promises of a batch *)

Section Settling.

Implicit Types (h : gmap nat PromiseState) (batch : list PendingItem) (p q : nat).

Lemma settle_lookup_ne p q s h : p ≠ q → settle p s h !! q = h !! q.
Proof.
  intros Hne. unfold settle. repeat case_match; try done.
  by rewrite lookup_insert_ne.
Qed.

Lemma settle_pending p s h : h !! p = Some Pending → settle p s h !! p = Some s.
Proof. intros Hp. unfold settle. rewrite Hp. apply lookup_insert_eq. Qed.

(** A settled promise stays as it is, whatever is settled afterwards. *)
Lemma settle_keeps p q s s' h :
  h !! q = Some s' → s' ≠ Pending → settle p s h !! q = Some s'.
Proof.
  intros Hq Hs'. destruct (decide (p = q)) as [-> | Hne].
  - unfold settle. rewrite Hq. by destruct s'.
  - by rewrite settle_lookup_ne.
Qed.

Lemma settle_is_Some p q s h : is_Some (settle p s h !! q) → is_Some (h !! q).
Proof.
  destruct (decide (p = q)) as [-> | Hne].
  - unfold settle. destruct (h !! q) as [[] |] eqn:Hq; rewrite ?Hq; eauto.
  - by rewrite settle_lookup_ne.
Qed.

Lemma reject_all_cons error it batch h :
  reject_all error (it :: batch) h = reject_all error batch (reject it error h).
Proof. reflexivity. Qed.

Lemma reject_all_other error batch h p :
  p ∉ promise <$> batch → reject_all error batch h !! p = h !! p.
Proof.
  revert h. induction batch as [| it batch IH]; intros h Hp; [done |].
  rewrite fmap_cons, not_elem_of_cons in Hp. destruct Hp as [Hne Hp].
  rewrite reject_all_cons, IH by done.
  unfold reject. by rewrite settle_lookup_ne.
Qed.

Lemma reject_all_keeps error batch h q s :
  h !! q = Some s → s ≠ Pending → reject_all error batch h !! q = Some s.
Proof.
  revert h. induction batch as [| it batch IH]; intros h Hq Hs; [done |].
  rewrite reject_all_cons. apply IH; [| done]. unfold reject. by apply settle_keeps.
Qed.


Lemma reject_all_is_Some error batch h q :
  is_Some (reject_all error batch h !! q) → is_Some (h !! q).
Proof.
  revert h. induction batch as [| it batch IH]; intros h; [done |].
  rewrite reject_all_cons. intros H. apply IH in H. by apply settle_is_Some in H.
Qed.

Lemma settle_by_result it result h :
  (if instanceof_Error result then reject it result h else resolve it result h) =
  settle (promise it) (settled_with result) h.
Proof. unfold settled_with, reject, resolve. by destruct (instanceof_Error result). Qed.

Lemma distribute_other results batch index h p :
  p ∉ promise <$> batch → distribute index results batch h !! p = h !! p.
Proof.
  revert index h. induction batch as [| it batch IH]; intros index h Hp; [done |].
  rewrite fmap_cons, not_elem_of_cons in Hp. destruct Hp as [Hne Hp].
  simpl. rewrite IH, settle_by_result by done. by rewrite settle_lookup_ne.
Qed.

Lemma distribute_is_Some results batch index h q :
  is_Some (distribute index results batch h !! q) → is_Some (h !! q).
Proof.
  revert index h. induction batch as [| it batch IH]; intros index h; [done |].
  simpl. intros H. apply IH in H. rewrite settle_by_result in H.
  by apply settle_is_Some in H.
Qed.

(** Item [i] of the batch is settled with [results[index + i]]. *)
Lemma distribute_lookup results batch index h i it :
  NoDup (promise <$> batch) → all_pending batch h →
  batch !! i = Some it →
  distribute index results batch h !! promise it =
    Some (settled_with (default VUndefined (results !! (index + i)))).
Proof.
  revert index h i. induction batch as [| a batch IH]; intros index h i Hnd Hall Hi;
    [done |].
  rewrite fmap_cons in Hnd. apply NoDup_cons in Hnd as [Ha Hnd].
  simpl. rewrite settle_by_result. destruct i as [| i]; simpl in Hi.
  - injection Hi as ->. rewrite distribute_other by done.
    rewrite Nat.add_0_r. apply settle_pending, Hall. by left.
  - replace (index + S i) with (S index + i) by lia.
    apply IH; [done | | done].
    intros x Hx. rewrite settle_lookup_ne.
    + apply Hall. by right.
    + intros Heq. apply Ha. rewrite Heq. by apply list_elem_of_fmap_2.
Qed.

End Settling.

(** ** Validation of batch results *)

Section Dispatch.

Implicit Types (t : Kind) (batch : list PendingItem) (st : State).

Lemma dispatch_validation_error t batch st src f :
  batch_fn t st = AFun src f →
  match f (calls st) (batch_arg t batch) with
  | NotThenable v =>
    dispatch t batch st =
      inr (finish (CheckedError (VError (contract t +:+ " but got: " +:+ to_string v)))
             batch (set_calls (calls st ++ [batch_arg t batch]) st))
  | ResolvesOther v =>
    dispatch t batch st =
      inr (finish (CheckedError
                     (VError (contract t +:+ " but got: Promise<" +:+ to_string v +:+ ">")))
             batch (set_calls (calls st ++ [batch_arg t batch]) st))
  | ResolvesArray rs =>
    dispatch t batch st =
      inr (finish
             (if bool_decide (length rs = length batch) then CheckedArray rs
              else CheckedError
                     (VError (contract t +:+ " of length " +:+ pretty (length batch) +:+
                              " but got length: " +:+ pretty (length rs))))
             batch (set_calls (calls st ++ [batch_arg t batch]) st))
  | Rejects e | Throws e =>
    dispatch t batch st = inl (Raised e, set_calls (calls st ++ [batch_arg t batch]) st)
  end.
Proof.
  intros Hfn. destruct t; simpl in Hfn;
    unfold dispatch, _batchLoad, _batchSave, call; rewrite Hfn; simpl;
    match goal with |- context [f ?l ?a] => destruct (f l a) end; simpl; try done;
    by case_bool_decide.
Qed.

Lemma dispatch_not_a_function t batch st :
  isFunction (batch_fn t st) = false →
  dispatch t batch st =
    inl (TypeError (match t with
                    | KLoad => "this._batchLoadFn is not a function"
                    | KSave => "this._batchSaveFn is not a function"
                    end), st).
Proof.
  intros Hfn. destruct t; simpl in Hfn;
    unfold dispatch, _batchLoad, _batchSave, call;
    match goal with |- context [match ?fn with AFun _ _ => _ | _ => _ end] =>
      destruct fn end; done.
Qed.

End Dispatch.



(** C6.  When the batch function returns a promise of an array of the
    batch's length, the promise of the item at each position is settled with
    the result at that position: rejected with it when it is an [Error],
    fulfilled with it otherwise; no other promise changes. *)
Theorem results_map_by_position
    (t : Kind) (batch : list PendingItem) (st : State) (src : string) (f : BatchFn)
    (rs : list Value) :
  batch_fn t st = AFun src f →
  NoDup (promise <$> batch) →
  all_pending batch (promises st) →
  f (calls st) (batch_arg t batch) = ResolvesArray rs →
  length rs = length batch →
  ∃ st',
    dispatch t batch st = inr st' ∧
    (∀ i it, batch !! i = Some it →
       ∃ r, rs !! i = Some r ∧
            promises st' !! promise it =
              Some (if instanceof_Error r then Rejected r else Fulfilled r)) ∧
    (∀ p, p ∉ promise <$> batch → promises st' !! p = promises st !! p) ∧
    calls st' = calls st ++ [batch_arg t batch].
Proof.
  intros Hfn Hnd Hall Hrs Hlen.
  pose proof (dispatch_validation_error t batch st src f Hfn) as Hd.
  rewrite Hrs, bool_decide_eq_true_2 in Hd by done.
  eexists. split; [exact Hd |]. simpl. repeat split.
  - intros i it Hi.
    destruct (lookup_lt_is_Some_2 rs i) as [r Hr].
    { rewrite Hlen. by eapply lookup_lt_Some. }
    exists r. split; [done |].
    rewrite (distribute_lookup rs batch 0 _ i it Hnd Hall Hi). simpl. by rewrite Hr.
  - intros p Hp. by apply distribute_other.
Qed.

(** Three loads of which the loader fails the second: the first and the
    third promise are fulfilled with their keys, the second is rejected. *)
Lemma results_map_by_position_witness :
  ∃ st',
    dispatch KLoad (_queue three_loads_partial) three_loads_partial = inr st' ∧
    promises st' !! 0 = Some (Fulfilled (VNum 1)) ∧
    promises st' !! 1 = Some (Rejected (VError "missing")) ∧
    promises st' !! 2 = Some (Fulfilled (VNum 3)).
Proof.
  destruct (results_map_by_position KLoad (_queue three_loads_partial) three_loads_partial
              "async keys => keys.map(k => k === 2 ? new Error('missing') : k)"
              partial_loader [VNum 1; VError "missing"; VNum 3])
    as (st' & Hd & Hpos & _).
  - reflexivity.
  - apply (bool_decide_unpack _). vm_compute. exact I.
  - intros it Hit. vm_compute in Hit.
    apply list_elem_of_In in Hit. simpl in Hit.
    destruct Hit as [<- | [<- | [<- | []]]]; vm_compute; reflexivity.
  - vm_compute. reflexivity.
  - vm_compute. reflexivity.
  - exists st'. split; [exact Hd |].
    destruct (Hpos 0 {| promise := 0; key := VNum 1; value := None; type := KLoad |})
      as (r0 & Hr0 & H0); [vm_compute; reflexivity |].
    destruct (Hpos 1 {| promise := 1; key := VNum 2; value := None; type := KLoad |})
      as (r1 & Hr1 & H1); [vm_compute; reflexivity |].
    destruct (Hpos 2 {| promise := 2; key := VNum 3; value := None; type := KLoad |})
      as (r2 & Hr2 & H2); [vm_compute; reflexivity |].
    simpl in Hr0, Hr1, Hr2. injection Hr0 as <-. injection Hr1 as <-. injection Hr2 as <-.
    split; [exact H0 |]. split; [exact H1 | exact H2].
Defined.

(** ** Reachable states *)

Section WellFormed.

Implicit Types (st : State) (k v : Value).

Lemma wf_new_state loadFn saveFn options : wf (new_state loadFn saveFn options).
Proof.
  split; simpl.
  - constructor.
  - intros it Hit. by apply elem_of_nil in Hit.
  - intros p [s Hs]. by rewrite lookup_empty in Hs.
  - intros name p Hp. by rewrite lookup_empty in Hp.
Qed.

Lemma wf_constructor batchLoadFn batchSaveFn options st :
  constructor batchLoadFn batchSaveFn options = inr st → wf st.
Proof.
  unfold constructor. repeat case_match; try done.
  intros [= <-]. apply wf_new_state.
Qed.

(** Pushing an item that holds the next promise. *)
Lemma wf_push st st' it :
  wf st →
  _queue st' = _queue st ++ [it] → promise it = fresh st →
  promises st' = <[fresh st := Pending]> (promises st) →
  fresh st' = S (fresh st) →
  (∀ name p, _loadCache st' !! name = Some p → p < S (fresh st)) →
  wf st'.
Proof.
  intros [Hnd Hpend Hheap Hcache] Hq Hit Hh Hf Hc.
  assert (∀ x, x ∈ _queue st → promise x < fresh st) as Hlt
    by (intros x Hx; apply Hheap; rewrite (Hpend x Hx); eauto).
  split.
  - rewrite Hq, fmap_app. apply NoDup_app. split; [done |]. split.
    + intros p Hp. simpl. rewrite list_elem_of_singleton. intros ->.
      apply list_elem_of_fmap in Hp as (x & Hx & Hin).
      apply Hlt in Hin. lia.
    + simpl. apply NoDup_singleton.
  - intros x Hx. rewrite Hq in Hx. rewrite Hh.
    apply elem_of_app in Hx as [Hx | Hx].
    + rewrite lookup_insert_ne; [by apply Hpend |]. apply Hlt in Hx. lia.
    + apply list_elem_of_singleton in Hx as ->. rewrite Hit. apply lookup_insert_eq.
  - intros p. rewrite Hh, Hf. destruct (decide (fresh st = p)) as [<- | Hne]; [lia |].
    rewrite lookup_insert_ne by done. intros Hp. apply Hheap in Hp. lia.
  - intros name p Hp. rewrite Hf. by eapply Hc.
Qed.

Lemma wf_load st k : wf st → wf (load k st).2.
Proof.
  intros Hwf. destruct (shouldCache st) eqn:Hc.
  - destruct (_loadCache st !! to_string (cacheKey_of st k)) as [p |] eqn:Hp.
    + by rewrite (load_hit _ _ _ Hc Hp).
    + destruct (decide (to_string (cacheKey_of st k) ∈ Object_prototype)) as [Hin | Hin].
      * by rewrite (load_inherited _ _ Hc Hp Hin).
      * destruct (load_miss _ _ Hc Hp Hin) as (st' & -> & Hq & Hl & Hh & Hf & _).
        simpl. eapply wf_push; eauto. intros name q. rewrite Hl.
        destruct (decide (to_string (cacheKey_of st k) = name)) as [<- | Hne].
        -- rewrite lookup_insert_eq. intros [= <-]. lia.
        -- rewrite lookup_insert_ne by done. intros Hq'.
           apply (wf_cache _ Hwf) in Hq'. lia.
  - unfold load, _loadLater. rewrite Hc.
    destruct (enqueue_spec k None KLoad st) as (st' & -> & Hq & Hh & Hf & Hl & _).
    simpl. eapply wf_push; eauto. intros name q. rewrite Hl. intros Hq'.
    apply (wf_cache _ Hwf) in Hq'. lia.
Qed.

Lemma wf_save st k v : wf st → wf (save k v st).2.
Proof.
  intros Hwf. destruct (save_spec st k v) as (st' & -> & Hq & Hl & Hh & Hf & _).
  simpl. eapply wf_push; eauto. intros name q. rewrite Hl. intros Hq'.
  apply lookup_delete_Some in Hq' as [_ Hq']. apply (wf_cache _ Hwf) in Hq'. lia.
Qed.

(** Dispatching touches the promises of the batch only, and creates
    none. *)
Lemma dispatch_promises t batch st :
  match dispatch t batch st with
  | inl (_, st') | inr st' =>
    (∀ p, p ∉ promise <$> batch → promises st' !! p = promises st !! p) ∧
    (∀ p, is_Some (promises st' !! p) → is_Some (promises st !! p))
  end.
Proof.
  rewrite dispatch_unfold.
  pose proof (call_inv (match t with KLoad => "_batchLoadFn" | KSave => "_batchSaveFn" end)
                (batch_fn t st) (batch_arg t batch) st) as Hc.
  destruct (call _ _ _ st) as [[e st'] | [o st']].
  - by destruct Hc as [-> | ->].
  - destruct Hc as (-> & _).
    destruct ((match t with KLoad => _checkLoadResult | KSave => _checkSaveResult end)
                o (length batch)) as [e | [error | results]]; simpl; [done | |].
    + split; [intros p Hp; by apply reject_all_other | apply reject_all_is_Some].
    + split; [intros p Hp; by apply distribute_other | apply distribute_is_Some].
Qed.

Lemma _flushQueue_cases st :
  (_queue st = [] ∧ _flushQueue st = Idle (set_flushing false st)) ∨
  ∃ head tl, _queue st = head :: tl ∧
    match scan (length (_queue st)) (_queue st) (type head)
               (effectiveMax st) 1 with
    | ScanOutOfFuel => _flushQueue st = OutOfFuel
    | ScanThrows e => _flushQueue st = Crashed e (set_flushing true st)
    | ScanDone batchSize =>
      _flushQueue st =
        match dispatch (type head) (take batchSize (_queue st))
                (set_queue (drop batchSize (_queue st)) (set_flushing true st)) with
        | inl (e, st') => Crashed e st'
        | inr st' => Again st'
        end
    end.
Proof.
  unfold _flushQueue. destruct (_queue st) as [| head tl] eqn:Hq; [by left |].
  right. exists head, tl. split; [done |].
  change (effectiveMax (set_flushing true st)) with (effectiveMax st).
  simpl _queue. rewrite Hq. by destruct (scan _ _ _ _ _).
Qed.

Lemma wf_flush st st' : wf st → state_of (_flushQueue st) = Some st' → wf st'.
Proof.
  intros Hwf. destruct (_flushQueue_cases st) as [[Hq ->] | (head & tl & Hq & Hscan)].
  - intros [= <-]. by destruct Hwf.
  - destruct (scan _ _ _ _ _) as [n | e |]; rewrite Hscan.
    + pose proof (dispatch_frame (type head) (take n (_queue st))
                    (set_queue (drop n (_queue st)) (set_flushing true st))) as Hfr.
      pose proof (dispatch_promises (type head) (take n (_queue st))
                    (set_queue (drop n (_queue st)) (set_flushing true st))) as Hpr.
      destruct Hwf as [Hnd Hpend Hheap Hcache].
      rewrite <- (take_drop n (_queue st)), fmap_app in Hnd.
      apply NoDup_app in Hnd as (_ & Hdisj & Hnd).
      assert (∀ s, (match dispatch (type head) (take n (_queue st))
                            (set_queue (drop n (_queue st)) (set_flushing true st)) with
                    | inl (_, s') | inr s' => s' = s end) → wf s) as Hgoal.
      { intros s Hs.
        destruct (dispatch _ _ _) as [[e s'] | s']; subst s';
          destruct Hfr as ((_ & _ & _ & Hl & Hf & _) & Hq' & _);
          destruct Hpr as (Hother & Hsome); simpl in *.
        all: split;
          [ by rewrite Hq'
          | intros x Hx; rewrite Hq' in Hx; rewrite Hother;
            [ apply Hpend; rewrite <- (take_drop n (_queue st)), elem_of_app; by right
            | intros Hin; eapply Hdisj; [exact Hin | by apply list_elem_of_fmap_2] ]
          | intros p Hp; rewrite Hf; by apply Hheap, Hsome
          | intros name p; rewrite Hl, Hf; apply Hcache ]. }
      destruct (dispatch _ _ _) as [[e s'] | s']; intros [= <-]; by apply Hgoal.
    + intros [= <-]. by destruct Hwf.
    + done.
Qed.

Lemma wf_step ev st : wf st → wf (step ev st).
Proof.
  intros Hwf. destruct ev as [k | k v |]; unfold step.
  - by apply wf_load.
  - by apply wf_save.
  - pose proof (wf_flush st) as H.
    destruct (_flushQueue st); simpl in H; eauto.
Qed.

Lemma wf_run evs st : wf st → wf (run evs st).
Proof.
  revert st. induction evs as [| ev evs IH]; intros st Hwf; [done |].
  simpl. fold (run evs (step ev st)). by apply IH, wf_step.
Qed.

(** In a reachable state any prefix of the queue is a batch of distinct
    pending promises. *)
Lemma wf_batch st n :
  wf st →
  NoDup (promise <$> take n (_queue st)) ∧ all_pending (take n (_queue st)) (promises st).
Proof.
  intros [Hnd Hpend _ _]. split.
  - rewrite <- (take_drop n (_queue st)), fmap_app in Hnd.
    by apply NoDup_app in Hnd as (? & _).
  - intros it Hit. apply Hpend. rewrite <- (take_drop n (_queue st)), elem_of_app. by left.
Qed.

End WellFormed.

(** ** The scan for the batch *)

Section Scan.

Implicit Types (t : Kind) (q : list PendingItem) (st : State).

Lemma homogeneous_prefix_length t q : length (homogeneous_prefix t q) ≤ length q.
Proof.
  induction q as [| it q IH]; simpl; [done |]. case_bool_decide; simpl; lia.
Qed.

Lemma homogeneous_prefix_take t q :
  homogeneous_prefix t q = take (length (homogeneous_prefix t q)) q.
Proof.
  induction q as [| it q IH]; simpl; [done |].
  case_bool_decide; simpl; [by rewrite <- IH | done].
Qed.

Lemma homogeneous_prefix_Forall t q :
  Forall (fun it => type it = t) (homogeneous_prefix t q).
Proof.
  induction q as [| it q IH]; simpl; [constructor |].
  case_bool_decide; by constructor.
Qed.

Lemma homogeneous_prefix_lookup t q i :
  i < length (homogeneous_prefix t q) → ∃ it, q !! i = Some it ∧ type it = t.
Proof.
  revert i. induction q as [| a q IH]; intros i; simpl; [lia |].
  case_bool_decide; simpl; [| lia].
  destruct i as [| i]; [eauto |]. intros Hi. apply IH. lia.
Qed.

Lemma homogeneous_prefix_stop t q it :
  q !! length (homogeneous_prefix t q) = Some it → type it ≠ t.
Proof.
  induction q as [| a q IH]; simpl; [done |].
  case_bool_decide; simpl; [done | congruence].
Qed.

Lemma homogeneous_prefix_all t q :
  Forall (fun it => type it = t) q → homogeneous_prefix t q = q.
Proof.
  induction 1 as [| it q Hit _ IH]; simpl; [done |].
  by rewrite bool_decide_eq_true_2, IH.
Qed.

Lemma homogeneous_prefix_maximal t q p :
  p `prefix_of` q → Forall (fun it => type it = t) p →
  p `prefix_of` homogeneous_prefix t q.
Proof.
  revert p. induction q as [| a q IH]; intros p Hp Hall.
  - apply prefix_nil_inv in Hp as ->. done.
  - destruct p as [| b p]; [apply prefix_nil |].
    apply prefix_cons_inv_1 in Hp as Hab. apply prefix_cons_inv_2 in Hp. subst b.
    apply Forall_cons in Hall as [Ha Hall]. simpl.
    rewrite bool_decide_eq_true_2 by done. by apply prefix_cons, IH.
Qed.

(** The loop stops at the cap or at the end of the run of kind [t],
    whichever comes first, and reads the queue inside its bounds only. *)
Lemma scan_spec fuel q t M b :
  (M ≤ Z.of_nat (length q))%Z →
  b ≤ length (homogeneous_prefix t q) →
  length (homogeneous_prefix t q) ≤ b + fuel →
  scan fuel q t M b =
    ScanDone (if (Z.of_nat b <? M)%Z
              then Z.to_nat M `min` length (homogeneous_prefix t q) else b).
Proof.
  intros HM. revert b. induction fuel as [| fuel IH]; intros b Hb Hfuel.
  - assert (b = length (homogeneous_prefix t q)) as Hbk by lia.
    simpl. destruct (Z.ltb_spec (Z.of_nat b) M) as [Hlt | Hge]; [| done].
    destruct (lookup_lt_is_Some_2 q b) as [it Hit]; [lia |].
    rewrite Hit. rewrite Hbk in Hit. apply homogeneous_prefix_stop in Hit.
    rewrite bool_decide_eq_false_2 by done. f_equal. lia.
  - simpl. destruct (Z.ltb_spec (Z.of_nat b) M) as [Hlt | Hge]; [| done].
    destruct (decide (b = length (homogeneous_prefix t q))) as [Hbk | Hbk].
    + destruct (lookup_lt_is_Some_2 q b) as [it Hit]; [lia |].
      rewrite Hit. rewrite Hbk in Hit. apply homogeneous_prefix_stop in Hit.
      rewrite bool_decide_eq_false_2 by done. f_equal. lia.
    + destruct (homogeneous_prefix_lookup t q b) as (it & Hit & Ht); [lia |].
      rewrite Hit, bool_decide_eq_true_2 by done.
      rewrite IH by lia. f_equal.
      destruct (Z.ltb_spec (Z.of_nat (S b)) M); lia.
Qed.

Lemma effectiveMax_le st : (effectiveMax st ≤ Z.of_nat (length (_queue st)))%Z.
Proof. unfold effectiveMax. repeat case_match; lia. Qed.

Lemma effectiveMax_positive st :
  maxBatchSize_positive st →
  effectiveMax st =
    match maxBatchSize (members (_options st)) with
    | Some m => Z.min m (Z.of_nat (length (_queue st)))
    | None => Z.of_nat (length (_queue st))
    end.
Proof.
  intros Hpos. unfold effectiveMax.
  destruct (maxBatchSize (members (_options st))) as [m |] eqn:Hm; [| done].
  specialize (Hpos m Hm). destruct (Z.eqb_spec m 0); [lia | done].
Qed.

(** The batch size the loop computes for a queue that starts with
    [head]. *)
Lemma scan_head st head tl :
  _queue st = head :: tl →
  ∃ batchSize,
    scan (length (_queue st)) (_queue st) (type head) (effectiveMax st) 1 =
      ScanDone batchSize ∧
    1 ≤ batchSize ≤ length (homogeneous_prefix (type head) (_queue st)) ∧
    (batchSize = 1 ∨ (Z.of_nat batchSize ≤ effectiveMax st)%Z) ∧
    ((1 ≤ effectiveMax st)%Z →
     batchSize = Z.to_nat (effectiveMax st) `min`
                 length (homogeneous_prefix (type head) (_queue st))).
Proof.
  intros Hq.
  assert (1 ≤ length (homogeneous_prefix (type head) (_queue st))) as Hk.
  { rewrite Hq. simpl. rewrite bool_decide_eq_true_2 by done. simpl. lia. }
  pose proof (homogeneous_prefix_length (type head) (_queue st)) as Hlen.
  eexists. split; [apply scan_spec; [apply effectiveMax_le | done | lia] |].
  destruct (Z.ltb_spec (Z.of_nat 1) (effectiveMax st)); repeat split; lia.
Qed.

Lemma dispatch_calls t batch st :
  match dispatch t batch st with
  | inl (_, st') | inr st' =>
    (calls st' = calls st ∨ calls st' = calls st ++ [batch_arg t batch]) ∧
    (isFunction (batch_fn t st) = true → calls st' = calls st ++ [batch_arg t batch])
  end.
Proof.
  destruct (isFunction (batch_fn t st)) eqn:Hfn.
  - apply isFunction_spec in Hfn as (src & f & Hfn).
    pose proof (dispatch_validation_error t batch st src f Hfn) as Hd.
    destruct (f (calls st) (batch_arg t batch)); rewrite Hd;
      rewrite ?finish_calls; simpl; eauto.
  - rewrite dispatch_not_a_function by done. split; [by left | done].
Qed.

End Scan.

(** ** One iteration of the flush loop *)

Section Iteration.

Implicit Types (t : Kind) (q : list PendingItem) (st : State).

Lemma batch_arg_nonempty t batch :
  batch ≠ [] → batch_arg t batch ≠ Keys [] ∧ batch_arg t batch ≠ Pairs [].
Proof. destruct batch; [done |]. by destruct t. Qed.

Lemma prefix_take {A} (p l : list A) c :
  p `prefix_of` l → length p ≤ c → p `prefix_of` take c l.
Proof.
  intros [r ->] Hc. rewrite take_app_ge by done. by apply prefix_app_r.
Qed.

(** An iteration on a non-empty queue takes [batchSize] items off the
    front and dispatches them. *)
Lemma _flushQueue_head st head tl :
  _queue st = head :: tl →
  ∃ batchSize,
    scan (length (_queue st)) (_queue st) (type head) (effectiveMax st) 1 =
      ScanDone batchSize ∧
    1 ≤ batchSize ≤ length (homogeneous_prefix (type head) (_queue st)) ∧
    ((1 ≤ effectiveMax st)%Z →
     batchSize = Z.to_nat (effectiveMax st) `min`
                 length (homogeneous_prefix (type head) (_queue st))) ∧
    _flushQueue st =
      match dispatch (type head) (take batchSize (_queue st))
              (set_queue (drop batchSize (_queue st)) (set_flushing true st)) with
      | inl (e, st') => Crashed e st'
      | inr st' => Again st'
      end.
Proof.
  intros Hq. destruct (scan_head st head tl Hq) as (n & Hscan & Hn & _ & Hmin).
  exists n. repeat split; try done; try lia.
  destruct (_flushQueue_cases st) as [[Hnil _] | (head' & tl' & Hq' & Hcase)];
    [congruence |].
  rewrite Hq in Hq'. injection Hq' as <- <-. by rewrite Hscan in Hcase.
Qed.

End Iteration.

(** C10.  On a non-empty queue the loop of [_flushQueue] ends with a batch
    size of at least 1 and at most the queue's length without ever reading
    [this._queue[i]] outside the queue, the iteration runs to its end, and the
    argument of the call it makes to a batch function, if it makes one, is not
    an empty array. *)
Theorem batch_size_in_range (st : State) (head : PendingItem) (tl : list PendingItem) :
  _queue st = head :: tl →
  ∃ batchSize st',
    scan (length (_queue st)) (_queue st) (type head) (effectiveMax st) 1 =
      ScanDone batchSize ∧
    1 ≤ batchSize ≤ length (_queue st) ∧
    state_of (_flushQueue st) = Some st' ∧
    (calls st' = calls st ∨
     calls st' = calls st ++ [batch_arg (type head) (take batchSize (_queue st))]) ∧
    length (take batchSize (_queue st)) = batchSize ∧
    batch_arg (type head) (take batchSize (_queue st)) ≠ Keys [] ∧
    batch_arg (type head) (take batchSize (_queue st)) ≠ Pairs [].
Proof.
  intros Hq. destruct (_flushQueue_head st head tl Hq) as (n & Hscan & Hn & _ & Hflush).
  pose proof (homogeneous_prefix_length (type head) (_queue st)) as Hlen.
  pose proof (dispatch_calls (type head) (take n (_queue st))
                (set_queue (drop n (_queue st)) (set_flushing true st))) as Hcalls.
  assert (length (take n (_queue st)) = n) as Htake by (rewrite length_take; lia).
  assert (take n (_queue st) ≠ []) as Hne.
  { intros Hnil. rewrite Hnil in Htake. simpl in Htake. lia. }
  destruct (batch_arg_nonempty (type head) _ Hne) as [Hk Hp].
  exists n.
  destruct (dispatch _ _ _) as [[e s] | s]; exists s; rewrite Hflush;
    destruct Hcalls as [Hcalls _]; repeat split; try done; lia.
Qed.

(** The test's [maxBatchSize: 1] with two loads queued: the batch size
    is 1. *)
Lemma batch_size_in_range_witness :
  let st := (loadMany [VNum 1; VNum 2] (limited 1)).2 in
  ∃ batchSize st',
    1 ≤ batchSize ≤ 2 ∧ state_of (_flushQueue st) = Some st' ∧
    (calls st' = [] ∨ calls st' = [Keys (key <$> take batchSize (_queue st))]).
Proof.
  intros st.
  destruct (batch_size_in_range st
              {| promise := 0; key := VNum 1; value := None; type := KLoad |}
              [{| promise := 1; key := VNum 2; value := None; type := KLoad |}])
    as (n & st' & _ & Hn & Hst' & Hcalls & _); [reflexivity |].
  exists n, st'. split; [exact Hn |]. split; [exact Hst' |]. exact Hcalls.
Defined.

(** C2.  With a [maxBatchSize] that is absent or a positive integer, an
    iteration on a non-empty queue takes off the front of the queue exactly
    the longest prefix whose items all have the kind of the head item, capped
    at [min(maxBatchSize, queueLength)] items ([queueLength] when absent), and
    dispatches that prefix as one batch to the method of that kind; every item
    of the batch has the kind of the head item. *)
Theorem flush_takes_longest_same_kind_prefix
    (st : State) (head : PendingItem) (tl : list PendingItem) :
  _queue st = head :: tl →
  maxBatchSize_positive st →
  let cap := match maxBatchSize (members (_options st)) with
             | Some m => Z.min m (Z.of_nat (length (_queue st)))
             | None => Z.of_nat (length (_queue st))
             end in
  let batch := capped_prefix (type head) cap (_queue st) in
  effectiveMax st = cap ∧
  ∃ st',
    state_of (_flushQueue st) = Some st' ∧
    _flushQueue st =
      match dispatch (type head) batch
              (set_queue (drop (length batch) (_queue st)) (set_flushing true st)) with
      | inl (e, st') => Crashed e st'
      | inr st' => Again st'
      end ∧
    _queue st = batch ++ _queue st' ∧
    batch ≠ [] ∧
    Forall (fun it => type it = type head) batch ∧
    (Z.of_nat (length batch) ≤ cap)%Z ∧
    (∀ p, p `prefix_of` _queue st → Forall (fun it => type it = type head) p →
          (Z.of_nat (length p) ≤ cap)%Z → p `prefix_of` batch) ∧
    (isFunction (batch_fn (type head) st) = true →
     calls st' = calls st ++ [batch_arg (type head) batch]).
Proof.
  intros Hq Hpos cap batch.
  pose proof (effectiveMax_positive st Hpos) as Hcap. fold cap in Hcap.
  split; [exact Hcap |].
  destruct (_flushQueue_head st head tl Hq) as (n & _ & Hn & Hmin & Hflush).
  pose proof (homogeneous_prefix_length (type head) (_queue st)) as Hlen.
  assert (1 ≤ cap)%Z as Hcap1.
  { rewrite <- Hcap. unfold effectiveMax. rewrite Hq. simpl length.
    destruct (maxBatchSize (members (_options st))) as [m |] eqn:Hm; [| lia].
    specialize (Hpos m Hm). destruct (Z.eqb_spec m 0); lia. }
  rewrite Hcap in Hmin. specialize (Hmin Hcap1).
  assert (batch = take n (_queue st)) as Hbatch.
  { unfold batch, capped_prefix.
    rewrite (homogeneous_prefix_take (type head) (_queue st)) at 1.
    by rewrite take_take, Hmin. }
  assert (length batch = n) as Hblen by (rewrite Hbatch, length_take; lia).
  rewrite <- Hbatch in Hflush. rewrite <- Hblen in Hflush.
  pose proof (dispatch_frame (type head) batch
                (set_queue (drop (length batch) (_queue st)) (set_flushing true st))) as Hfr.
  pose proof (dispatch_calls (type head) batch
                (set_queue (drop (length batch) (_queue st)) (set_flushing true st))) as Hcalls.
  assert (∀ s, (match dispatch (type head) batch
                        (set_queue (drop (length batch) (_queue st))
                           (set_flushing true st)) with
                | inl (_, s') | inr s' => s' = s end) →
     _queue st = batch ++ _queue s ∧
     batch ≠ [] ∧
     Forall (fun it => type it = type head) batch ∧
     (Z.of_nat (length batch) ≤ cap)%Z ∧
     (∀ p, p `prefix_of` _queue st → Forall (fun it => type it = type head) p →
           (Z.of_nat (length p) ≤ cap)%Z → p `prefix_of` batch) ∧
     (isFunction (batch_fn (type head) st) = true →
      calls s = calls st ++ [batch_arg (type head) batch])) as Hgoal.
  { intros s Hs.
    assert (_queue s = drop n (_queue st) ∧
            (isFunction (batch_fn (type head) st) = true →
             calls s = calls st ++ [batch_arg (type head) batch])) as [Hqs Hcs].
    { destruct (dispatch _ _ _) as [[e s'] | s']; subst s';
        destruct Hfr as (_ & -> & _); destruct Hcalls as [_ Hcalls];
        rewrite Hblen; split; try done; intros Hf; apply Hcalls; by destruct (type head). }
    split; [by rewrite Hqs, Hbatch, take_drop |].
    split; [intros Hnil; rewrite Hnil in Hblen; simpl in Hblen; lia |].
    split; [apply Forall_take, homogeneous_prefix_Forall |].
    split; [lia |]. split; [| exact Hcs].
    intros p Hp Hall Hplen. unfold batch, capped_prefix.
    apply prefix_take; [by apply homogeneous_prefix_maximal | lia]. }
  destruct (dispatch _ _ _) as [[e s] | s]; exists s; rewrite Hflush;
    (split; [done |]); (split; [done |]); by apply Hgoal.
Qed.

(** The test's [maxBatchSize: 1]: of the two queued loads the iteration
    takes the first. *)
Lemma flush_takes_longest_same_kind_prefix_witness :
  let st := (loadMany [VNum 1; VNum 2] (limited 1)).2 in
  ∃ st', state_of (_flushQueue st) = Some st' ∧
         calls st' = [Keys [VNum 1]] ∧
         _queue st' = [{| promise := 1; key := VNum 2; value := None; type := KLoad |}].
Proof.
  intros st.
  destruct (flush_takes_longest_same_kind_prefix st
              {| promise := 0; key := VNum 1; value := None; type := KLoad |}
              [{| promise := 1; key := VNum 2; value := None; type := KLoad |}])
    as (_ & st' & Hst' & _ & Hq & _ & _ & _ & _ & Hcalls).
  - reflexivity.
  - intros m Hm. vm_compute in Hm. injection Hm as <-. lia.
  - exists st'. split; [exact Hst' |]. split.
    + apply Hcalls. reflexivity.
    + apply (app_inv_head [{| promise := 0; key := VNum 1; value := None; type := KLoad |}]).
      symmetry. exact Hq.
Defined.

(** ** What holds for every configuration *)

Section Always.

Implicit Types (t : Kind) (q : list PendingItem) (st : State).

(** Whatever [maxBatchSize] is, the batch an iteration takes is a non-empty
    prefix of the queue whose items all have the kind of the head item. *)
Lemma dispatched_batch_same_kind st head tl :
  _queue st = head :: tl →
  ∃ batch st',
    state_of (_flushQueue st) = Some st' ∧
    _flushQueue st =
      match dispatch (type head) batch
              (set_queue (drop (length batch) (_queue st)) (set_flushing true st)) with
      | inl (e, st') => Crashed e st'
      | inr st' => Again st'
      end ∧
    _queue st = batch ++ _queue st' ∧
    batch ≠ [] ∧
    Forall (fun it => type it = type head) batch.
Proof.
  intros Hq. destruct (_flushQueue_head st head tl Hq) as (n & _ & Hn & _ & Hflush).
  pose proof (homogeneous_prefix_length (type head) (_queue st)) as Hlen.
  assert (length (take n (_queue st)) = n) as Htake by (rewrite length_take; lia).
  exists (take n (_queue st)). rewrite Htake.
  pose proof (dispatch_frame (type head) (take n (_queue st))
                (set_queue (drop n (_queue st)) (set_flushing true st))) as Hfr.
  assert (Forall (fun it => type it = type head) (take n (_queue st))) as Hall.
  { replace (take n (_queue st))
      with (take n (homogeneous_prefix (type head) (_queue st))).
    - apply Forall_take, homogeneous_prefix_Forall.
    - rewrite (homogeneous_prefix_take (type head) (_queue st)) at 1.
      rewrite take_take. f_equal. lia. }
  assert (take n (_queue st) ≠ []) as Hne.
  { intros Hnil. rewrite Hnil in Htake. simpl in Htake. lia. }
  destruct (dispatch _ _ _) as [[e s] | s]; exists s; rewrite Hflush;
    destruct Hfr as (_ & Hqs & _); simpl in Hqs;
    repeat split; try done; by rewrite Hqs, take_drop.
Qed.

(** An iteration always comes to an end. *)
Lemma _flushQueue_returns st : is_Some (state_of (_flushQueue st)).
Proof.
  destruct (_queue st) as [| head tl] eqn:Hq.
  - unfold _flushQueue. rewrite Hq. simpl. eauto.
  - destruct (dispatched_batch_same_kind st head tl Hq) as (_ & st' & -> & _). eauto.
Qed.

(** The loop comes to an end within one iteration per queued item and one
    more: idle with an empty queue, or stopped by an exception. *)
Lemma flush_returns fuel : ∀ st,
  length (_queue st) < fuel →
  (∃ st', flush fuel st = Idle st' ∧ _queue st' = [] ∧ _flushing st' = false) ∨
  (∃ e st', flush fuel st = Crashed e st' ∧ _flushing st' = true).
Proof.
  induction fuel as [| fuel IH]; intros st Hfuel; [lia |].
  destruct (_queue st) as [| head tl] eqn:Hq.
  - left. exists (set_flushing false st). simpl. unfold _flushQueue. rewrite Hq.
    by repeat split.
  - destruct (_flushQueue_head st head tl Hq) as (n & _ & Hn & _ & Hflush).
    pose proof (dispatch_frame (type head) (take n (_queue st))
                  (set_queue (drop n (_queue st)) (set_flushing true st))) as Hfr.
    simpl. rewrite Hflush.
    destruct (dispatch _ _ _) as [[e s] | s]; destruct Hfr as (_ & Hqs & Hfl);
      simpl in Hqs, Hfl.
    + right. by exists e, s.
    + assert (length (_queue st) = S (length tl)) as Hlen by (by rewrite Hq).
      simpl in Hfuel. apply IH. rewrite Hqs, length_drop. lia.
Qed.

(** A batch function that throws, or whose promise rejects, stops the loop:
    the exception leaves [_flushQueue] with the batch off the queue, its
    promises as they were and [_flushing] set. *)
Lemma flush_stops_on_rejection st head tl src f e :
  _queue st = head :: tl →
  batch_fn (type head) st = AFun src f →
  (∀ log arg, f log arg = Rejects e ∨ f log arg = Throws e) →
  ∃ st', _flushQueue st = Crashed (Raised e) st' ∧
         promises st' = promises st ∧ _flushing st' = true ∧
         length (_queue st') < length (_queue st).
Proof.
  intros Hq Hfn Hrej.
  destruct (_flushQueue_head st head tl Hq) as (n & _ & Hn & _ & Hflush).
  pose proof (dispatch_validation_error (type head) (take n (_queue st))
                (set_queue (drop n (_queue st)) (set_flushing true st)) src f Hfn) as Hd.
  simpl calls in Hd.
  destruct (Hrej (calls st) (batch_arg (type head) (take n (_queue st)))) as [Hr | Hr];
    rewrite Hr in Hd; rewrite Hd in Hflush; eexists; (split; [exact Hflush |]);
    simpl; rewrite length_drop; assert (length (_queue st) = S (length tl)) as Hlen
      by (by rewrite Hq); repeat split; lia.
Qed.

End Always.

(** ** The flush loop to its end *)

Section Loop.

Implicit Types (t : Kind) (q : list PendingItem) (st : State).

Lemma ceil_div_spec n m :
  (1 ≤ m)%Z →
  (m * (ceil_div n m - 1) < n ≤ m * ceil_div n m)%Z.
Proof.
  intros Hm. unfold ceil_div.
  pose proof (Z.div_mod (n + m - 1) m ltac:(lia)) as Hdiv.
  pose proof (Z.mod_pos_bound (n + m - 1) m ltac:(lia)) as Hmod.
  lia.
Qed.

Lemma ceil_div_0 m : (1 ≤ m)%Z → ceil_div 0 m = 0%Z.
Proof. intros Hm. unfold ceil_div. apply Z.div_small. lia. Qed.

Lemma ceil_div_small n m : (1 ≤ n ≤ m)%Z → ceil_div n m = 1%Z.
Proof.
  intros Hn. unfold ceil_div. symmetry.
  apply (Z.div_unique_pos _ _ _ (n - 1)); lia.
Qed.

Lemma ceil_div_step n m : (1 ≤ m)%Z → ceil_div n m = (1 + ceil_div (n - m) m)%Z.
Proof.
  intros Hm. unfold ceil_div.
  replace (n + m - 1)%Z with ((n - m + m - 1) + 1 * m)%Z by lia.
  rewrite Z.div_add by lia. lia.
Qed.

(** A batch function that answers gets the batch, and the iteration goes
    on. *)
Lemma dispatch_answers t batch st :
  answers (batch_fn t st) →
  ∃ st', dispatch t batch st = inr st' ∧
    calls st' = calls st ++ [batch_arg t batch] ∧
    untouched st st' ∧ _queue st' = _queue st ∧ _flushing st' = _flushing st.
Proof.
  intros (src & f & Hfn & Hans).
  pose proof (dispatch_validation_error t batch st src f Hfn) as Hd.
  pose proof (dispatch_frame t batch st) as Hfr.
  pose proof (dispatch_calls t batch st) as Hcalls.
  specialize (Hans (calls st) (batch_arg t batch)).
  assert (isFunction (batch_fn t st) = true) as Hfun by (by rewrite Hfn).
  assert (∃ st', dispatch t batch st = inr st') as [st' Hst'].
  { destruct (f (calls st) (batch_arg t batch)); try done; rewrite Hd; eauto. }
  rewrite Hst' in Hfr, Hcalls. destruct Hfr as (Hu & Hq & Hfl).
  destruct Hcalls as [_ Hcalls]. exists st'. split; [done |].
  split; [by apply Hcalls | done].
Qed.

Lemma flush_homogeneous fuel : ∀ st t m,
  maxBatchSize (members (_options st)) = Some m → (1 ≤ m)%Z →
  Forall (fun it => type it = t) (_queue st) →
  answers (batch_fn t st) →
  length (_queue st) < fuel →
  ∃ st' batches,
    flush fuel st = Idle st' ∧
    calls st' = calls st ++ (batch_arg t <$> batches) ∧
    Z.of_nat (length batches) = ceil_div (Z.of_nat (length (_queue st))) m ∧
    Forall (fun b => 1 ≤ length b ∧ (Z.of_nat (length b) ≤ m)%Z) batches ∧
    concat batches = _queue st ∧
    _queue st' = [] ∧ _flushing st' = false.
Proof.
  induction fuel as [| fuel IH]; intros st t m Hm Hpos Hall Hans Hfuel; [lia |].
  destruct (_queue st) as [| head tl] eqn:Hq.
  - exists (set_flushing false st), []. simpl. unfold _flushQueue. rewrite Hq.
    rewrite app_nil_r, ceil_div_0 by done. by repeat split.
  - destruct (_flushQueue_head st head tl Hq) as (n & _ & Hn & Hmin & Hflush).
    assert (type head = t) as Ht by (by apply Forall_cons in Hall as [? _]).
    rewrite Ht in *. rewrite <- Hq in *.
    rewrite (homogeneous_prefix_all t (_queue st) Hall) in *.
    assert (effectiveMax st = Z.min m (Z.of_nat (length (_queue st)))) as HM.
    { unfold effectiveMax. rewrite Hm. destruct (Z.eqb_spec m 0); [lia | done]. }
    assert (1 ≤ length (_queue st)) as Hlen by (rewrite Hq; simpl; lia).
    rewrite HM in Hmin. specialize (Hmin ltac:(lia)).
    destruct (dispatch_answers t (take n (_queue st))
                (set_queue (drop n (_queue st)) (set_flushing true st)) Hans)
      as (st2 & Hd & Hcalls & (Hlf & Hsf & Hopt & _) & Hq2 & _).
    rewrite Hd in Hflush. simpl in Hcalls, Hq2, Hlf, Hsf, Hopt.
    destruct (IH st2 t m) as (st' & batches & Hfl & Hcs & Hcount & Hsizes & Hcat & Hend).
    + by rewrite Hopt.
    + done.
    + rewrite Hq2. by apply Forall_drop.
    + destruct t; simpl in *; by rewrite ?Hlf, ?Hsf.
    + rewrite Hq2, length_drop. lia.
    + exists st', (take n (_queue st) :: batches).
      split; [simpl; by rewrite Hflush |].
      split; [rewrite Hcs, Hcalls, fmap_cons, <- app_assoc; done |].
      split.
      { simpl length. rewrite Nat2Z.inj_succ, Hcount, Hq2, length_drop.
        destruct (decide (Z.of_nat (length (_queue st)) ≤ m)%Z) as [Hle | Hgt].
        - replace (length (_queue st) - n) with 0 by lia.
          rewrite ceil_div_0, ceil_div_small by lia. done.
        - rewrite (ceil_div_step (Z.of_nat (length (_queue st))) m) by done.
          replace (Z.of_nat (length (_queue st) - n))
            with (Z.of_nat (length (_queue st)) - m)%Z by lia. lia. }
      split; [constructor; [rewrite length_take; lia | done] |].
      split; [simpl; by rewrite Hcat, Hq2, take_drop | done].
Qed.

End Loop.

(** C7.  With [maxBatchSize = m], [m ≥ 1], and a queue of [n > m] items of
    one kind whose batch function answers every call, the flush loop runs to
    its end with exactly [ceil(n / m)] calls of the batch function, each for
    at most [m] items, and the batches of the calls, in the order of the
    calls, make up the queue in its order. *)
Theorem maxBatchSize_splits_queue (st : State) (t : Kind) (m : Z) (n : nat) :
  maxBatchSize (members (_options st)) = Some m →
  (1 ≤ m)%Z →
  length (_queue st) = n →
  (m < Z.of_nat n)%Z →
  Forall (fun it => type it = t) (_queue st) →
  answers (batch_fn t st) →
  ∃ st' batches,
    flush (S n) st = Idle st' ∧
    calls st' = calls st ++ (batch_arg t <$> batches) ∧
    Z.of_nat (length batches) = ceil_div (Z.of_nat n) m ∧
    (m * (Z.of_nat (length batches) - 1) < Z.of_nat n ≤ m * Z.of_nat (length batches))%Z ∧
    Forall (fun b => 1 ≤ length b ∧ (Z.of_nat (length b) ≤ m)%Z) batches ∧
    concat batches = _queue st ∧
    _queue st' = [].
Proof.
  intros Hm Hpos Hn Hgt Hall Hans.
  destruct (flush_homogeneous (S n) st t m Hm Hpos Hall Hans)
    as (st' & batches & Hfl & Hcs & Hcount & Hsizes & Hcat & Hq & _); [lia |].
  rewrite Hn in Hcount.
  exists st', batches. repeat split; try done.
  - rewrite Hcount. by apply ceil_div_spec.
  - rewrite Hcount. by apply ceil_div_spec.
Qed.

(** Five loads with [maxBatchSize: 2]: three calls, for two, two and one
    key. *)
Lemma maxBatchSize_splits_queue_witness :
  ∃ st' batches,
    flush 6 five_loads = Idle st' ∧ length batches = 3 ∧
    calls st' = [Keys [VNum 1; VNum 2]; Keys [VNum 3; VNum 4]; Keys [VNum 5]] ∧
    calls st' = batch_arg KLoad <$> batches.
Proof.
  destruct (maxBatchSize_splits_queue five_loads KLoad 2 5)
    as (st' & batches & Hfl & Hcs & Hcount & _ & _ & _ & _).
  - reflexivity.
  - lia.
  - reflexivity.
  - lia.
  - vm_compute. repeat constructor.
  - exists "async keys => keys", echo_loader. split; [reflexivity |].
    intros log [ks | kvs]; exact I.
  - exists st', batches. split; [exact Hfl |].
    assert (ceil_div (Z.of_nat 5) 2 = 3%Z) as Hceil by reflexivity.
    split; [rewrite Hceil in Hcount; lia |].
    split; [| exact Hcs].
    assert (flush 6 five_loads = Idle st') as Hfl' by exact Hfl.
    vm_compute in Hfl'. injection Hfl' as <-. reflexivity.
Defined.

(** ** Saving *)

Section Save.

Implicit Types (st : State) (k v : Value).

(** For a cache key that names nothing in [Object.prototype], [save]
    makes the next [load] of the key start over: a new promise, distinct
    from every promise the cache held, and a new item behind the save's. *)
Lemma save_invalidates st k v :
  wf st → shouldCache st = true →
  to_string (cacheKey_of st k) ∉ Object_prototype →
  ∃ st1 st2,
    save k v st = (fresh st, st1) ∧
    _loadCache st1 !! to_string (cacheKey_of st k) = None ∧
    load k st1 = (Promise (S (fresh st)), st2) ∧
    _queue st2 = _queue st ++
      [{| promise := fresh st; key := k; value := Some v; type := KSave |};
       {| promise := S (fresh st); key := k; value := None; type := KLoad |}] ∧
    promises st2 !! S (fresh st) = Some Pending ∧
    ∀ name p, _loadCache st !! name = Some p → p ≠ S (fresh st).
Proof.
  intros Hwf Hc Hin.
  destruct (save_spec st k v) as (st1 & Hsave & Hq1 & Hl1 & Hh1 & Hf1 & Ho1 & _).
  assert (_loadCache st1 !! to_string (cacheKey_of st k) = None) as Hnone
    by (rewrite Hl1; apply lookup_delete_eq).
  destruct (load_miss st1 k) as (st2 & Hload & Hq2 & _ & Hh2 & _).
  - by rewrite (shouldCache_options _ _ Ho1).
  - by rewrite (cacheKey_of_options _ _ _ Ho1).
  - by rewrite (cacheKey_of_options _ _ _ Ho1).
  - exists st1, st2. rewrite Hf1 in Hload, Hq2, Hh2.
    split; [done |]. split; [done |]. split; [done |].
    split; [by rewrite Hq2, Hq1, <- app_assoc |].
    split; [rewrite Hh2; apply lookup_insert_eq |].
    intros name p Hp. apply (wf_cache _ Hwf) in Hp. lia.
Qed.

(** For a cache key that does name something in [Object.prototype], the
    [load] after the [save] finds that member and queues nothing. *)
Lemma load_after_save_inherited st k v :
  shouldCache st = true →
  to_string (cacheKey_of st k) ∈ Object_prototype →
  load k (save k v st).2 =
    (Inherited (to_string (cacheKey_of st k)), (save k v st).2).
Proof.
  intros Hc Hin.
  destruct (save_spec st k v) as (st1 & -> & _ & Hl1 & _ & _ & Ho1 & _). simpl.
  rewrite <- (cacheKey_of_options _ _ k Ho1). apply load_inherited.
  - by rewrite (shouldCache_options _ _ Ho1).
  - rewrite (cacheKey_of_options _ _ _ Ho1), Hl1. apply lookup_delete_eq.
  - by rewrite (cacheKey_of_options _ _ _ Ho1).
Qed.

Lemma saveMany_cons k v saves st :
  saveMany ((k, v) :: saves) st =
    let '(p, st1) := save k v st in
    let '(ps, st2) := saveMany saves st1 in (p :: ps, st2).
Proof. reflexivity. Qed.

Lemma saveMany_spec saves : ∀ st,
  ∃ st', saveMany saves st = (seq (fresh st) (length saves), st') ∧
    _queue st' = _queue st ++ save_items (fresh st) saves ∧
    fresh st' = fresh st + length saves ∧
    _batchSaveFn st' = _batchSaveFn st ∧
    (∀ p, p < fresh st → promises st' !! p = promises st !! p) ∧
    (∀ p, fresh st ≤ p < fresh st + length saves → promises st' !! p = Some Pending).
Proof.
  induction saves as [| [k v] saves IH]; intros st.
  - exists st. simpl. rewrite app_nil_r, Nat.add_0_r. repeat split; try done. lia.
  - destruct (save_spec st k v) as (st1 & Hsave & Hq1 & _ & Hh1 & Hf1 & _ & _ & Hs1 & _).
    destruct (IH st1) as (st' & Hmany & Hq & Hf & Hs & Hold & Hnew).
    exists st'. rewrite saveMany_cons, Hsave, Hmany, Hf1. simpl.
    split; [done |]. split; [by rewrite Hq, Hq1, Hf1, <- app_assoc |].
    split; [lia |]. split; [congruence |]. split.
    + intros p Hp. rewrite Hold by lia. rewrite Hh1. apply lookup_insert_ne. lia.
    + intros p Hp. destruct (decide (p = fresh st)) as [-> | Hne].
      * rewrite Hold by lia. rewrite Hh1. apply lookup_insert_eq.
      * apply Hnew. lia.
Qed.

End Save.

(** C3, at a key the code gets wrong.  On the coordinator of the tests
    (echo loader, saver, no options), [save('toString', 1)] followed by
    [load('toString')]: the load returns [Object.prototype.toString], found
    through the prototype of the object literal that serves as the cache; it
    returns no promise and queues nothing, and the flush that follows calls
    the saver only. *)
Theorem load_after_save_inherited_name :
  constructor (AFun "async keys => keys" echo_loader)
              (AFun "async writes => writes.map(() => undefined)" void_saver)
              AUndefined = inr load_save ∧
  ∃ st1 st2,
    save (VStr "toString") (VNum 1) load_save = (0, st1) ∧
    load (VStr "toString") st1 = (Inherited "toString", st1) ∧
    _queue st1 =
      [{| promise := 0; key := VStr "toString"; value := Some (VNum 1); type := KSave |}] ∧
    tick st1 = Idle st2 ∧
    calls st2 = [Pairs [(VStr "toString", VNum 1)]].
Proof.
  split; [reflexivity |].
  eexists _, _. split; [reflexivity |].
  split; [vm_compute; reflexivity |].
  split; [vm_compute; reflexivity |].
  split; [vm_compute; reflexivity |].
  vm_compute. reflexivity.
Qed.

(** The test 'clears load cache when save changes', for comparison: for
    key [1] the second load gets its own promise and its own call of the
    loader. *)
Example load_after_save_test :
  ∃ st1 st2 st3 st4,
    load (VNum 1) load_save = (Promise 0, st1) ∧
    save (VNum 1) (VNum 1) st1 = (1, st2) ∧
    load (VNum 1) st2 = (Promise 2, st3) ∧
    tick st3 = Idle st4 ∧
    calls st4 = [Keys [VNum 1]; Pairs [(VNum 1, VNum 1)]; Keys [VNum 1]].
Proof.
  eexists _, _, _, _. split; [reflexivity |].
  split; [vm_compute; reflexivity |].
  split; [vm_compute; reflexivity |].
  split; [vm_compute; reflexivity |].
  vm_compute. reflexivity.
Qed.

(** C4, as the code has it.  A coordinator constructed with a callable
    load function, a second argument of type object and no third argument
    holds [null] as its save function, and on a coordinator that does, [save]
    and [saveMany] raise nothing: every save returns a new, pending promise
    and appends a save item for its key and value to the queue. *)
Theorem save_on_load_only_enqueues (batchLoadFn second : Arg) :
  isFunction batchLoadFn = true →
  isObject second = true →
  ∃ st0,
    constructor batchLoadFn second AUndefined = inr st0 ∧
    _batchSaveFn st0 = ANull ∧
    ∀ st, _batchSaveFn st = ANull →
      (∀ k v, ∃ st',
         save k v st = (fresh st, st') ∧
         promises st' !! fresh st = Some Pending ∧
         _queue st' = _queue st ++
           [{| promise := fresh st; key := k; value := Some v; type := KSave |}] ∧
         _batchSaveFn st' = ANull) ∧
      (∀ saves, ∃ st',
         saveMany saves st = (seq (fresh st) (length saves), st') ∧
         Forall (fun p => promises st' !! p = Some Pending)
                (seq (fresh st) (length saves)) ∧
         _queue st' = _queue st ++ save_items (fresh st) saves ∧
         _batchSaveFn st' = ANull).
Proof.
  intros Hl Hobj.
  eexists. split; [by apply constructor_options_second |]. split; [done |].
  intros st Hst. split.
  - intros k v.
    destruct (save_spec st k v) as (st' & Hsave & Hq & _ & Hh & _ & _ & _ & Hs & _).
    exists st'. split; [done |]. split; [rewrite Hh; apply lookup_insert_eq |].
    split; [done | congruence].
  - intros saves.
    destruct (saveMany_spec saves st) as (st' & Hmany & Hq & _ & Hs & _ & Hnew).
    exists st'. split; [done |]. split; [| split; [done | congruence]].
    apply Forall_forall. intros p Hp. apply elem_of_seq in Hp. apply Hnew. lia.
Qed.

(** [new DataBatcher(loader, {})], then [save(1, 'test')] and
    [saveMany([[2, 'a'], [3, 'b']])]: three pending promises, three queued
    items. *)
Lemma save_on_load_only_enqueues_witness :
  ∃ st0 st1 st2,
    constructor (AFun "async keys => keys" echo_loader) (AObj empty_options) AUndefined =
      inr st0 ∧
    save (VNum 1) (VStr "test") st0 = (0, st1) ∧
    promises st1 !! 0 = Some Pending ∧
    saveMany [(VNum 2, VStr "a"); (VNum 3, VStr "b")] st1 = ([1; 2], st2) ∧
    length (_queue st2) = 3.
Proof.
  destruct (save_on_load_only_enqueues (AFun "async keys => keys" echo_loader)
              (AObj empty_options))
    as (st0 & Hst0 & Hnull & Hsave); [reflexivity | reflexivity |].
  destruct (Hsave st0 Hnull) as [Hone _].
  destruct (Hone (VNum 1) (VStr "test")) as (st1 & Hs1 & Hp1 & Hq1 & Hnull1).
  destruct (Hsave st1 Hnull1) as [_ Hmany].
  destruct (Hmany [(VNum 2, VStr "a"); (VNum 3, VStr "b")]) as (st2 & Hs2 & _ & Hq2 & _).
  assert (fresh st0 = 0 ∧ _queue st0 = []) as [Hf0 Hq0].
  { injection Hst0 as <-. by split. }
  assert (fresh st1 = 1) as Hf1.
  { destruct (save_spec st0 (VNum 1) (VStr "test")) as (st1' & Hs1' & _ & _ & _ & Hf & _).
    rewrite Hs1 in Hs1'. injection Hs1' as <-. by rewrite Hf, Hf0. }
  rewrite Hf0 in Hs1, Hp1. rewrite Hf1 in Hs2.
  exists st0, st1, st2. repeat split; try done.
  rewrite Hq2, Hq1, Hq0. reflexivity.
Defined.

(** C4, as the spec has it, fails.  On [new DataBatcher(loader, {})] the
    call [save(1, 'test')] returns a promise that is pending, not rejected;
    the flush that follows stops on the [TypeError] of calling [null], which
    reaches no caller, and leaves the promise pending and the coordinator
    flushing for good. *)
Lemma save_on_load_only_does_not_fail :
  ∃ st0 st1 st2,
    constructor (AFun "async keys => keys" echo_loader) (AObj empty_options) AUndefined =
      inr st0 ∧
    _batchSaveFn st0 = ANull ∧
    save (VNum 1) (VStr "test") st0 = (0, st1) ∧
    promises st1 !! 0 = Some Pending ∧
    (¬ ∃ e, promises st1 !! 0 = Some (Rejected e)) ∧
    tick st1 = Crashed (TypeError "this._batchSaveFn is not a function") st2 ∧
    promises st2 !! 0 = Some Pending ∧
    _flushing st2 = true ∧ calls st2 = [].
Proof.
  eexists _, _, _. split; [reflexivity |]. split; [reflexivity |].
  split; [reflexivity |]. split; [vm_compute; reflexivity |].
  split; [intros [e He]; vm_compute in He; discriminate |].
  split; [vm_compute; reflexivity |].
  split; [vm_compute; reflexivity |]. split; vm_compute; reflexivity.
Qed.

(** In any state, a batch of saves dispatched to a [null] or [undefined]
    save function stops the flush loop with a [TypeError]. *)
Lemma flush_without_save_fn (st : State) (head : PendingItem) (tl : list PendingItem) :
  _queue st = head :: tl → type head = KSave →
  isFunction (_batchSaveFn st) = false →
  ∃ st', _flushQueue st = Crashed (TypeError "this._batchSaveFn is not a function") st' ∧
         promises st' = promises st ∧ _flushing st' = true ∧ calls st' = calls st.
Proof.
  intros Hq Ht Hfn.
  destruct (_flushQueue_head st head tl Hq) as (n & _ & _ & _ & Hflush).
  rewrite Ht in Hflush. rewrite dispatch_not_a_function in Hflush by done.
  eexists. split; [exact Hflush |]. by repeat split.
Qed.

(** * Further properties *)

(** ** Construction and options *)

Section MoreConstruction.

Implicit Types batchLoadFn batchSaveFn options : Arg.

Lemma _prepareBatchSaveFn_cases batchSaveFn options :
  _prepareBatchSaveFn batchSaveFn options =
    if isUndefined options && isObject batchSaveFn then inr ANull
    else if isUndefined batchSaveFn || isFunction batchSaveFn then inr batchSaveFn
         else inl (TypeError (save_fn_message batchSaveFn)).
Proof.
  unfold _prepareBatchSaveFn. destruct (isUndefined options && isObject batchSaveFn); [done |].
  by destruct batchSaveFn.
Qed.

Lemma members_prepareOptions batchSaveFn options :
  members (_prepareOptions batchSaveFn options) =
    if isUndefined options && isObject batchSaveFn then members batchSaveFn
    else members options.
Proof.
  unfold _prepareOptions.
  destruct (isUndefined options && isObject batchSaveFn) eqn:Hsecond.
  - destruct batchSaveFn; try done. all: by destruct (truthy _).
  - destruct options; try done. all: by destruct (truthy _).
Qed.

Lemma constructor_inr batchLoadFn batchSaveFn options st :
  constructor batchLoadFn batchSaveFn options = inr st →
  ∃ saveFn, st = new_state batchLoadFn saveFn (_prepareOptions batchSaveFn options).
Proof.
  unfold constructor, _prepareBatchLoadFn.
  destruct (isFunction batchLoadFn); simpl; [| done].
  destruct (_prepareBatchSaveFn batchSaveFn options); [done |].
  intros [= <-]. eauto.
Qed.

End MoreConstruction.

(** X1.  Construction succeeds exactly when the load function is callable
    and the second argument is taken for the options (type object, no third
    argument), is undefined, or is callable; the coordinator then starts with
    an empty cache and queue, no promise, no call, and no flush running or
    scheduled, and its save function is the second argument or [null]. *)
Theorem constructor_succeeds_iff (batchLoadFn batchSaveFn options : Arg) :
  ((∃ st, constructor batchLoadFn batchSaveFn options = inr st) ↔
   isFunction batchLoadFn = true ∧
   (isUndefined options && isObject batchSaveFn = true ∨
    isUndefined batchSaveFn = true ∨ isFunction batchSaveFn = true)) ∧
  match constructor batchLoadFn batchSaveFn options with
  | inl _ => True
  | inr st =>
    _batchLoadFn st = batchLoadFn ∧
    _batchSaveFn st =
      (if isUndefined options && isObject batchSaveFn then ANull else batchSaveFn) ∧
    _loadCache st = ∅ ∧ _queue st = [] ∧ promises st = ∅ ∧ calls st = [] ∧
    _flushing st = false ∧ nextTick st = 0
  end.
Proof.
  unfold constructor, _prepareBatchLoadFn. rewrite _prepareBatchSaveFn_cases.
  destruct (isFunction batchLoadFn); simpl.
  - destruct (isUndefined options && isObject batchSaveFn); simpl.
    + split; [| done]. split; eauto.
    + destruct (isUndefined batchSaveFn) eqn:Hu, (isFunction batchSaveFn) eqn:Hf; simpl;
        (split; [| done]);
        (split;
         [ intros [st Hst]; first [done | split; [done | eauto]]
         | intros [_ Hor]; first [eexists; reflexivity | destruct Hor as [? | [? | ?]]; done] ]).
  - split; [| done]. split; [intros [st Hst]; done | intros [? _]; done].
Qed.

(** X2.  The options the methods read are those of the third argument when
    it is defined, those of the second argument when the third is undefined
    and the second is of type object, and otherwise none: the coordinator then
    caches, uses the key itself as cache key and puts no limit on a batch. *)
Theorem options_resolution (batchLoadFn batchSaveFn options : Arg) (st : State) :
  constructor batchLoadFn batchSaveFn options = inr st →
  (isDefined options = true → members (_options st) = members options) ∧
  (isUndefined options = true → isObject batchSaveFn = true →
   members (_options st) = members batchSaveFn) ∧
  (isUndefined options = true → isObject batchSaveFn = false →
   shouldCache st = true ∧ (∀ k, cacheKey_of st k = k) ∧
   ∀ st', _options st' = _options st →
          effectiveMax st' = Z.of_nat (length (_queue st'))).
Proof.
  intros Hc. apply constructor_inr in Hc as [saveFn ->].
  pose proof (members_prepareOptions batchSaveFn options) as Hm.
  split; [| split].
  - intros Hd. simpl. rewrite Hm.
    unfold isDefined in Hd. unfold isUndefined.
    by destruct (bool_decide (typeof options = TyUndefined)).
  - intros Hu Ho. simpl. by rewrite Hm, Hu, Ho.
  - intros Hu Ho.
    assert (members (_prepareOptions batchSaveFn options) = empty_options) as He.
    { rewrite Hm, Ho, andb_false_r. by destruct options. }
    split; [| split].
    + unfold shouldCache. simpl. by rewrite He.
    + intros k. unfold cacheKey_of. simpl. by rewrite He.
    + intros st' Hst'. unfold effectiveMax. rewrite Hst'. simpl. by rewrite He.
Qed.

(** [new DataBatcher(loader, saver, { maxBatchSize: 2 })],
    [new DataBatcher(loader, { cache: false })] and [new DataBatcher(loader)]. *)
Lemma options_resolution_witness :
  (∃ st, constructor (AFun "async keys => keys" echo_loader)
           (AFun "async writes => writes.map(() => undefined)" void_saver)
           (AObj {| cache := VUndefined; cacheKeyFn := None; maxBatchSize := Some 2%Z |}) =
           inr st ∧
         maxBatchSize (members (_options st)) = Some 2%Z) ∧
  (∃ st, constructor (AFun "async keys => keys" echo_loader)
           (AObj {| cache := VBool false; cacheKeyFn := None; maxBatchSize := None |})
           AUndefined = inr st ∧
         cache (members (_options st)) = VBool false) ∧
  shouldCache (load_only "async keys => keys" echo_loader) = true.
Proof.
  split; [| split].
  - destruct (options_resolution (AFun "async keys => keys" echo_loader)
                (AFun "async writes => writes.map(() => undefined)" void_saver)
                (AObj {| cache := VUndefined; cacheKeyFn := None; maxBatchSize := Some 2%Z |})
                _ eq_refl) as (Hthird & _ & _).
    eexists. split; [reflexivity |]. rewrite (Hthird eq_refl). reflexivity.
  - destruct (options_resolution (AFun "async keys => keys" echo_loader)
                (AObj {| cache := VBool false; cacheKeyFn := None; maxBatchSize := None |})
                AUndefined _ eq_refl) as (_ & Hsecond & _).
    eexists. split; [reflexivity |]. rewrite (Hsecond eq_refl eq_refl). reflexivity.
  - destruct (options_resolution (AFun "async keys => keys" echo_loader)
                AUndefined AUndefined _ eq_refl) as (_ & _ & Hnone).
    exact (proj1 (Hnone eq_refl eq_refl)).
Defined.

(** ** Many loads, many saves *)

Section Many.

Implicit Types (st : State) (k v : Value) (keys : list Value).

Lemma read_loadCache_name (c : gmap string nat) (a b : Value) :
  to_string a = to_string b → read_loadCache c a = read_loadCache c b.
Proof. unfold read_loadCache. by intros ->. Qed.

Lemma loadMany_cons k keys st :
  loadMany (k :: keys) st =
    let '(r, st1) := load k st in
    let '(rs, st2) := loadMany keys st1 in (r :: rs, st2).
Proof. reflexivity. Qed.

(** With caching on, what [load] returns is what the cache holds under the
    cache key afterwards, and no earlier answer of the cache changes. *)
Lemma load_result_cached st k :
  shouldCache st = true →
  ∃ r st1,
    load k st = (r, st1) ∧
    read_loadCache (_loadCache st1) (cacheKey_of st k) = Some r ∧
    _options st1 = _options st ∧
    (∀ ck r', read_loadCache (_loadCache st) ck = Some r' →
              read_loadCache (_loadCache st1) ck = Some r') ∧
    length (_queue st1) ≤ S (length (_queue st)).
Proof.
  intros Hc.
  destruct (_loadCache st !! to_string (cacheKey_of st k)) as [p |] eqn:Hp.
  - exists (Promise p), st. rewrite (load_hit _ _ _ Hc Hp).
    split; [done |]. split; [unfold read_loadCache; by rewrite Hp |].
    split; [done |]. split; [done | lia].
  - destruct (decide (to_string (cacheKey_of st k) ∈ Object_prototype)) as [Hin | Hin].
    + eexists _, st. rewrite (load_inherited _ _ Hc Hp Hin).
      split; [done |].
      split; [unfold read_loadCache; by rewrite Hp, bool_decide_eq_true_2 |].
      split; [done |]. split; [done | lia].
    + destruct (load_miss _ _ Hc Hp Hin) as (st1 & -> & Hq & Hl & _ & _ & Ho & _).
      exists (Promise (fresh st)), st1. split; [done |].
      split; [unfold read_loadCache; by rewrite Hl, lookup_insert_eq |].
      split; [done |]. split; [| rewrite Hq, length_app; simpl; lia].
      intros ck r'. unfold read_loadCache. rewrite Hl.
      destruct (decide (to_string (cacheKey_of st k) = to_string ck)) as [Heq | Hne].
      * rewrite <- Heq, Hp, bool_decide_eq_false_2 by done. done.
      * by rewrite lookup_insert_ne.
Qed.

Lemma load_uncached_spec st k :
  shouldCache st = false →
  ∃ st', load k st = (Promise (fresh st), st') ∧
    _queue st' = _queue st ++
      [{| promise := fresh st; key := k; value := None; type := KLoad |}] ∧
    _loadCache st' = _loadCache st ∧ fresh st' = S (fresh st) ∧
    _options st' = _options st.
Proof.
  intros Hc. unfold load, _loadLater. rewrite Hc.
  destruct (enqueue_spec k None KLoad st) as (st' & -> & Hq & _ & Hf & Hl & Ho & _).
  eauto 10.
Qed.

Lemma saved_names_options st st' saves :
  _options st' = _options st → saved_names st' saves = saved_names st saves.
Proof.
  intros Ho. unfold saved_names. apply list_fmap_ext. intros i kv _.
  by rewrite (cacheKey_of_options _ _ _ Ho).
Qed.

(** The pairs of the queued save items are the pairs saved. *)
Lemma entry_save_items (p : nat) (saves : list (Value * Value)) :
  entry <$> save_items p saves = saves.
Proof.
  revert p. induction saves as [| [k v] saves IH]; intros p; [done |].
  cbn [save_items]. rewrite fmap_cons, IH. reflexivity.
Qed.

End Many.

(** X3.  With caching on, [loadMany(keys)] returns one result per key, in
    the order of the keys; the result at each position is what the cache holds
    under the key's cache key afterwards, so keys with the same cache key get
    the identical result; no answer the cache gave before changes; and at most
    one item per key is queued. *)
Theorem loadMany_results (st : State) (keys : list Value) :
  shouldCache st = true →
  ∃ rs st',
    loadMany keys st = (rs, st') ∧
    length rs = length keys ∧
    (∀ i k, keys !! i = Some k →
       ∃ r, rs !! i = Some r ∧
            read_loadCache (_loadCache st') (cacheKey_of st k) = Some r) ∧
    (∀ i j ki kj, keys !! i = Some ki → keys !! j = Some kj →
       to_string (cacheKey_of st ki) = to_string (cacheKey_of st kj) →
       rs !! i = rs !! j) ∧
    (∀ ck r, read_loadCache (_loadCache st) ck = Some r →
             read_loadCache (_loadCache st') ck = Some r) ∧
    length (_queue st') ≤ length (_queue st) + length keys.
Proof.
  intros Hc.
  assert (∃ rs st',
    loadMany keys st = (rs, st') ∧ length rs = length keys ∧
    (∀ i k, keys !! i = Some k →
       ∃ r, rs !! i = Some r ∧
            read_loadCache (_loadCache st') (cacheKey_of st k) = Some r) ∧
    (∀ ck r, read_loadCache (_loadCache st) ck = Some r →
             read_loadCache (_loadCache st') ck = Some r) ∧
    length (_queue st') ≤ length (_queue st) + length keys)
    as (rs & st' & Hmany & Hlen & Hpos & Hmono & Hq).
  { revert st Hc. induction keys as [| k keys IH]; intros st Hc.
    - exists [], st. simpl. repeat split; try done. lia.
    - destruct (load_result_cached st k Hc) as (r & st1 & Hload & Hr & Ho & Hmono1 & Hq1).
      destruct (IH st1) as (rs & st' & Hmany & Hlen & Hpos & Hmono & Hq);
        [by rewrite (shouldCache_options _ _ Ho) |].
      exists (r :: rs), st'. rewrite loadMany_cons, Hload, Hmany.
      split; [done |]. split; [simpl; by rewrite Hlen |].
      split; [| split; [intros ck r' Hr'; by apply Hmono, Hmono1 | simpl; lia]].
      intros [| i] k' Hk'; simpl in Hk'.
      + injection Hk' as <-. exists r. split; [done |]. by apply Hmono.
      + destruct (Hpos i k' Hk') as (r' & Hr' & Hread). exists r'. split; [done |].
        by rewrite <- (cacheKey_of_options _ _ k' Ho). }
  exists rs, st'. repeat split; try done.
  intros i j ki kj Hi Hj Hsame.
  destruct (Hpos i ki Hi) as (ri & -> & Hri). destruct (Hpos j kj Hj) as (rj & -> & Hrj).
  rewrite (read_loadCache_name _ _ _ Hsame) in Hri. congruence.
Qed.

(** [loadMany([1, 'a', 1, 'toString', '1'])] on the coordinator of the
    tests: three promises, the third and the fifth being the first, and the
    inherited member for ['toString']. *)
Lemma loadMany_results_witness :
  ∃ st',
    loadMany [VNum 1; VStr "a"; VNum 1; VStr "toString"; VStr "1"] load_save =
      ([Promise 0; Promise 1; Promise 0; Inherited "toString"; Promise 0], st') ∧
    length (_queue st') ≤ 5.
Proof.
  destruct (loadMany_results load_save
              [VNum 1; VStr "a"; VNum 1; VStr "toString"; VStr "1"])
    as (rs & st' & Hmany & _ & _ & _ & _ & Hq); [reflexivity |].
  exists st'. split; [| exact Hq].
  assert (rs = [Promise 0; Promise 1; Promise 0; Inherited "toString"; Promise 0]) as <-;
    [| exact Hmany].
  assert (loadMany [VNum 1; VStr "a"; VNum 1; VStr "toString"; VStr "1"] load_save =
          (rs, st')) as Hmany' by exact Hmany.
  vm_compute in Hmany'. injection Hmany' as <- _. reflexivity.
Defined.

(** X4.  With caching off ([cache: false]), every [load] is queued: the
    loads of [loadMany(keys)] return as many new, pairwise distinct promises
    as there are keys, repeated keys included, queue one item per key in the
    order of the keys, and leave the cache as it is. *)
Theorem loads_without_cache (st : State) (keys : list Value) :
  shouldCache st = false →
  ∃ st',
    loadMany keys st = (Promise <$> seq (fresh st) (length keys), st') ∧
    NoDup (seq (fresh st) (length keys)) ∧
    _queue st' = _queue st ++ load_items (fresh st) keys ∧
    _loadCache st' = _loadCache st ∧
    fresh st' = fresh st + length keys.
Proof.
  intros Hc. cut (∃ st',
    loadMany keys st = (Promise <$> seq (fresh st) (length keys), st') ∧
    _queue st' = _queue st ++ load_items (fresh st) keys ∧
    _loadCache st' = _loadCache st ∧ fresh st' = fresh st + length keys).
  { intros (st' & ? & ? & ? & ?). exists st'. repeat split; try done. apply NoDup_seq. }
  revert st Hc. induction keys as [| k keys IH]; intros st Hc.
  - exists st. simpl. rewrite app_nil_r. repeat split; try done; lia.
  - destruct (load_uncached_spec st k Hc) as (st1 & Hload & Hq1 & Hl1 & Hf1 & Ho1).
    destruct (IH st1) as (st' & Hmany & Hq & Hl & Hf);
      [by rewrite (shouldCache_options _ _ Ho1) |].
    exists st'. rewrite loadMany_cons, Hload, Hmany, Hf1. simpl.
    split; [done |]. split; [by rewrite Hq, Hq1, Hf1, <- app_assoc |].
    split; [congruence | lia].
Qed.

(** The test 'supports disabling cache through options': two loads of
    key 1 give two promises and two queued items. *)
Lemma loads_without_cache_witness :
  ∃ st',
    loadMany [VNum 1; VNum 1]
      (new_state (AFun "async keys => keys" echo_loader) ANull
         (AObj {| cache := VBool false; cacheKeyFn := None; maxBatchSize := None |})) =
      ([Promise 0; Promise 1], st') ∧
    key <$> _queue st' = [VNum 1; VNum 1].
Proof.
  destruct (loads_without_cache
              (new_state (AFun "async keys => keys" echo_loader) ANull
                 (AObj {| cache := VBool false; cacheKeyFn := None; maxBatchSize := None |}))
              [VNum 1; VNum 1]) as (st' & Hmany & _ & Hq & _); [reflexivity |].
  exists st'. split; [exact Hmany |]. rewrite Hq. reflexivity.
Defined.

(** X5.  [saveMany(saves)] deletes the cache entry under the cache key of
    every key it saves and no other entry, returns one new promise per pair
    and queues one save item per pair, carrying its key and value, in the
    order of the pairs. *)
Theorem saveMany_invalidates (st : State) (saves : list (Value * Value)) :
  ∃ st',
    saveMany saves st = (seq (fresh st) (length saves), st') ∧
    (∀ name, _loadCache st' !! name =
             if decide (name ∈ saved_names st saves) then None
             else _loadCache st !! name) ∧
    _queue st' = _queue st ++ save_items (fresh st) saves ∧
    entry <$> save_items (fresh st) saves = saves.
Proof.
  cut (∃ st',
    saveMany saves st = (seq (fresh st) (length saves), st') ∧
    (∀ name, _loadCache st' !! name =
             if decide (name ∈ saved_names st saves) then None
             else _loadCache st !! name) ∧
    _queue st' = _queue st ++ save_items (fresh st) saves).
  { intros (st' & ? & ? & ?). exists st'. repeat split; try done.
    apply entry_save_items. }
  revert st. induction saves as [| [k v] saves IH]; intros st.
  - exists st. split; [done |]. split; [| by rewrite app_nil_r].
    intros name. rewrite decide_False; [done | apply not_elem_of_nil].
  - destruct (save_spec st k v) as (st1 & Hsave & Hq1 & Hl1 & _ & Hf1 & Ho1 & _).
    destruct (IH st1) as (st' & Hmany & Hl & Hq).
    exists st'. rewrite saveMany_cons, Hsave, Hmany, Hf1.
    split; [reflexivity |]. split; [| by rewrite Hq, Hq1, Hf1, <- app_assoc].
    intros name. rewrite Hl, (saved_names_options _ _ _ Ho1), Hl1.
    change (saved_names st ((k, v) :: saves))
      with (to_string (cacheKey_of st k) :: saved_names st saves).
    destruct (decide (name = to_string (cacheKey_of st k))) as [-> | Hne].
    + rewrite lookup_delete_eq. rewrite (decide_True (P := _ ∈ _ :: _)) by by left.
      by case_decide.
    + rewrite lookup_delete_ne by done.
      destruct (decide (name ∈ saved_names st saves)) as [Hin | Hin].
      * by rewrite (decide_True (P := _ ∈ _ :: _)) by by right.
      * rewrite (decide_False (P := _ ∈ _ :: _)); [done |].
        intros [? | ?]%elem_of_cons; done.
Qed.

(** ** Scheduling *)

Section Scheduling.

Implicit Types (st : State) (k v : Value) (ev : Event) (evs : list Event).

(** What [enqueue] does to the schedule: [process.nextTick] is called when
    the queue was empty and no flush is running, and not otherwise. *)
Lemma enqueue_schedule k (v : option Value) t st :
  _flushing (enqueue k v t st).2 = _flushing st ∧
  nextTick (enqueue k v t st).2 =
    match _queue st with
    | [] => if _flushing st then nextTick st else S (nextTick st)
    | _ :: _ => nextTick st
    end ∧
  _queue (enqueue k v t st).2 =
    _queue st ++ [{| promise := fresh st; key := k; value := v; type := t |}] ∧
  promises (enqueue k v t st).2 = <[fresh st := Pending]> (promises st).
Proof.
  unfold enqueue. destruct (_queue st) as [| a q] eqn:Hq; simpl.
  - rewrite Hq. simpl. destruct (_flushing st) eqn:Hfl; simpl; rewrite ?Hfl; by repeat split.
  - rewrite Hq. simpl. rewrite bool_decide_eq_false_2; [by repeat split |].
    rewrite length_app. simpl. lia.
Qed.

(** A [load] leaves the state alone or enqueues, with or without a new
    cache entry; a [save] enqueues after deleting from the cache. *)
Lemma load_state_cases k st :
  (load k st).2 = st ∨
  (load k st).2 = (enqueue k None KLoad st).2 ∨
  ∃ c, (load k st).2 = set_loadCache c (enqueue k None KLoad st).2.
Proof.
  unfold load, _loadLater. destruct (shouldCache st).
  - destruct (read_loadCache _ _); [by left |].
    destruct (enqueue k None KLoad st) as [p st1]. right. right. eauto.
  - destruct (enqueue k None KLoad st) as [p st1]. right. by left.
Qed.

Lemma save_state k v st :
  (save k v st).2 =
    (enqueue k (Some v) KSave
       (set_loadCache (delete (to_string (cacheKey_of st k)) (_loadCache st)) st)).2.
Proof. reflexivity. Qed.

(** A caller's step appends at most one item, keeps [_flushing], and
    asks for a flush exactly when it appends to an empty queue while no flush
    is running. *)
Lemma caller_step_schedule ev st :
  caller_event ev →
  _flushing (step ev st) = _flushing st ∧
  ((_queue (step ev st) = _queue st ∧ nextTick (step ev st) = nextTick st ∧
    promises (step ev st) = promises st) ∨
   (∃ it, _queue (step ev st) = _queue st ++ [it]) ∧
   nextTick (step ev st) =
     match _queue st with
     | [] => if _flushing st then nextTick st else S (nextTick st)
     | _ :: _ => nextTick st
     end ∧
   promises (step ev st) = <[fresh st := Pending]> (promises st)).
Proof.
  intros Hev. destruct ev as [k | k v |]; [| | done]; unfold step.
  - pose proof (enqueue_schedule k None KLoad st) as (Hf & Hn & Hq & Hp).
    destruct (load_state_cases k st) as [-> | [-> | [c ->]]].
    + split; [done |]. by left.
    + split; [done |]. right. eauto.
    + simpl. split; [done |]. right. eauto.
  - rewrite save_state.
    pose proof (enqueue_schedule k (Some v) KSave
                  (set_loadCache (delete (to_string (cacheKey_of st k)) (_loadCache st)) st))
      as (Hf & Hn & Hq & Hp).
    simpl in Hf, Hn, Hq, Hp. split; [done |]. right. eauto.
Qed.


Lemma run_cons ev evs st : run (ev :: evs) st = run evs (step ev st).
Proof. reflexivity. Qed.




End Scheduling.



(** X7.  While [_flushing] is set, whether because a flush is waiting for
    a batch function or because an exception stopped the loop, a load or save
    never calls [process.nextTick] and never clears the flag: the requests
    are only queued. *)
Theorem no_schedule_while_flushing (st : State) (evs : list Event) :
  _flushing st = true →
  Forall caller_event evs →
  _flushing (run evs st) = true ∧
  nextTick (run evs st) = nextTick st ∧
  ∃ items, _queue (run evs st) = _queue st ++ items.
Proof.
  intros Hfl Hevs. revert st Hfl.
  induction Hevs as [| ev evs Hev _ IH]; intros st Hfl.
  - split; [done |]. split; [done |]. exists []. by rewrite app_nil_r.
  - rewrite run_cons.
    destruct (caller_step_schedule ev st Hev) as [Hfl' [(Hq & Hn' & _) | ([it Hq] & Hn' & _)]];
      destruct (IH (step ev st)) as (Hfl'' & Hn'' & items & Hitems); try congruence.
    + split; [done |]. split; [congruence |]. exists items. by rewrite Hitems, Hq.
    + split; [done |]. rewrite Hfl in Hn'. split.
      * rewrite Hn'', Hn'. by destruct (_queue st).
      * exists (it :: items). by rewrite Hitems, Hq, <- app_assoc.
Qed.

(** A load and a save made after the loader's rejection has stopped the
    flush loop: nothing is scheduled for them. *)
Lemma no_schedule_while_flushing_witness :
  _flushing (run [EvLoad (VNum 2); EvSave (VNum 3) (VStr "x")] stuck) = true ∧
  nextTick (run [EvLoad (VNum 2); EvSave (VNum 3) (VStr "x")] stuck) = 0 ∧
  length (_queue (run [EvLoad (VNum 2); EvSave (VNum 3) (VStr "x")] stuck)) = 2.
Proof.
  destruct (no_schedule_while_flushing stuck [EvLoad (VNum 2); EvSave (VNum 3) (VStr "x")])
    as (Hfl & Hn & _).
  - vm_compute. reflexivity.
  - repeat constructor.
  - split; [exact Hfl |]. split; [rewrite Hn |]; vm_compute; reflexivity.
Defined.

(** ** Promises over the life of a coordinator *)

Section Lifecycle.

Implicit Types (st : State) (t : Kind) (batch : list PendingItem) (p : nat).

Lemma distribute_keeps results batch index (h : gmap nat PromiseState) p s :
  h !! p = Some s → s ≠ Pending → distribute index results batch h !! p = Some s.
Proof.
  revert index h. induction batch as [| it batch IH]; intros index h Hp Hs; [done |].
  simpl. apply IH; [| done]. rewrite settle_by_result. by apply settle_keeps.
Qed.

(** Dispatching never changes a promise that is already settled. *)
Lemma dispatch_keeps_settled t batch st :
  match dispatch t batch st with
  | inl (_, st') | inr st' =>
    ∀ p s, promises st !! p = Some s → s ≠ Pending → promises st' !! p = Some s
  end.
Proof.
  rewrite dispatch_unfold.
  pose proof (call_inv (match t with KLoad => "_batchLoadFn" | KSave => "_batchSaveFn" end)
                (batch_fn t st) (batch_arg t batch) st) as Hc.
  destruct (call _ _ _ st) as [[e st'] | [o st']].
  - by destruct Hc as [-> | ->].
  - destruct Hc as (-> & _).
    destruct ((match t with KLoad => _checkLoadResult | KSave => _checkSaveResult end)
                o (length batch)) as [e | [error | results]]; simpl; [done | |].
    + intros p s. apply reject_all_keeps.
    + intros p s. apply distribute_keeps.
Qed.



Lemma caller_step_promises ev st :
  caller_event ev →
  promises (step ev st) = promises st ∨
  promises (step ev st) = <[fresh st := Pending]> (promises st).
Proof.
  intros Hev. destruct (caller_step_schedule ev st Hev) as [_ [(_ & _ & ?) | (_ & _ & ?)]];
    eauto.
Qed.

(** No step changes a settled promise. *)
Lemma step_keeps_settled ev st p s :
  wf st → promises st !! p = Some s → s ≠ Pending →
  promises (step ev st) !! p = Some s.
Proof.
  intros Hwf Hp Hs.
  assert (caller_event ev → promises (step ev st) !! p = Some s) as Hcaller.
  { intros Hev. destruct (caller_step_promises ev st Hev) as [-> | ->]; [done |].
    rewrite lookup_insert_ne; [done |].
    assert (p < fresh st) by (apply (wf_heap _ Hwf); eauto). lia. }
  destruct ev as [k | k v |]; [by apply Hcaller | by apply Hcaller |].
  - unfold step.
    destruct (_flushQueue_cases st) as [[Hq ->] | (head & tl & Hq & Hscan)]; [done |].
    destruct (scan _ _ _ _ _) as [n | e |]; rewrite Hscan; [| done | done].
    pose proof (dispatch_keeps_settled (type head) (take n (_queue st))
                  (set_queue (drop n (_queue st)) (set_flushing true st))) as Hk.
    destruct (dispatch _ _ _) as [[e s'] | s']; by apply Hk.
Qed.


Lemma flush_untouched fuel : ∀ st st',
  state_of (flush fuel st) = Some st' → untouched st st'.
Proof.
  induction fuel as [| fuel IH]; intros st st'; [done |].
  simpl. pose proof (_flushQueue_frame st) as Hfr.
  destruct (_flushQueue st) as [s | s | e s |]; simpl in *; try (by intros [= <-]).
  intros Hs. eapply untouched_trans; [exact Hfr | by apply IH].
Qed.

End Lifecycle.

(** X8.  In every state a coordinator can reach from its construction by
    loads, saves and turns of the flush loop, the queued items hold pairwise
    distinct promises, all of them pending, and every promise in the cache or
    the queue is one the coordinator has created. *)
Theorem reachable_states_well_formed
    (batchLoadFn batchSaveFn options : Arg) (st0 : State) (evs : list Event) :
  constructor batchLoadFn batchSaveFn options = inr st0 →
  wf (run evs st0) ∧
  NoDup (promise <$> _queue (run evs st0)) ∧
  ∀ it, it ∈ _queue (run evs st0) →
        promises (run evs st0) !! promise it = Some Pending ∧
        promise it < fresh (run evs st0).
Proof.
  intros Hc. assert (wf (run evs st0)) as Hwf by (by eapply wf_run, wf_constructor).
  split; [done |]. split; [by apply wf_nodup |].
  intros it Hit. pose proof (wf_pending _ Hwf it Hit) as Hp. split; [done |].
  apply (wf_heap _ Hwf). rewrite Hp. eauto.
Qed.

(** Loads and saves around a turn of the flush loop on the coordinator of
    the tests: what is left in the queue holds distinct promises. *)
Lemma reachable_states_well_formed_witness :
  NoDup (promise <$> _queue (run [EvLoad (VNum 1); EvSave (VNum 1) (VNum 5); EvFlush;
                                  EvLoad (VNum 1); EvLoad (VNum 2)] load_save)).
Proof.
  exact (proj1 (proj2 (reachable_states_well_formed
    (AFun "async keys => keys" echo_loader)
    (AFun "async writes => writes.map(() => undefined)" void_saver)
    AUndefined load_save
    [EvLoad (VNum 1); EvSave (VNum 1) (VNum 5); EvFlush; EvLoad (VNum 1); EvLoad (VNum 2)]
    eq_refl))).
Defined.

(** ** A whole flush *)

Section WholeFlush.

Implicit Types (st : State) (t : Kind) (batch : list PendingItem).



End WholeFlush.



(** X10.  Without a [maxBatchSize] (absent, or 0, which the code treats as
    absent), a queue of items of one kind goes out in a single call with all
    of them in arrival order; when the batch function resolves to an array of
    as many results, the promise of the item at each position is settled with
    the result at that position, and a second turn of the loop finds the queue
    empty and ends the flush. *)
Theorem unlimited_queue_in_one_call
    (st : State) (t : Kind) (head : PendingItem) (tl : list PendingItem)
    (src : string) (f : BatchFn) (rs : list Value) :
  wf st →
  _queue st = head :: tl →
  Forall (fun it => type it = t) (_queue st) →
  (∀ m, maxBatchSize (members (_options st)) = Some m → m = 0%Z) →
  batch_fn t st = AFun src f →
  f (calls st) (batch_arg t (_queue st)) = ResolvesArray rs →
  length rs = length (_queue st) →
  ∃ st',
    flush 2 st = Idle st' ∧
    calls st' = calls st ++ [batch_arg t (_queue st)] ∧
    (∀ i it, _queue st !! i = Some it →
       ∃ r, rs !! i = Some r ∧
            promises st' !! promise it =
              Some (if instanceof_Error r then Rejected r else Fulfilled r)) ∧
    _queue st' = [] ∧ _flushing st' = false.
Proof.
  intros Hwf Hq Hall Hmax Hfn Hrs Hlen.
  destruct (_flushQueue_head st head tl Hq) as (n & _ & _ & Hmin & Hflush).
  assert (type head = t) as Ht.
  { rewrite Hq in Hall. by apply Forall_cons in Hall as [? _]. }
  rewrite Ht in Hmin, Hflush. rewrite (homogeneous_prefix_all t _ Hall) in Hmin.
  assert (effectiveMax st = Z.of_nat (length (_queue st))) as HM.
  { unfold effectiveMax.
    destruct (maxBatchSize (members (_options st))) as [m |] eqn:Hm; [| done].
    by rewrite (Hmax m eq_refl). }
  assert (1 ≤ length (_queue st)) as Hpos by (rewrite Hq; simpl; lia).
  assert (n = length (_queue st)) as -> by (rewrite Hmin, HM; lia).
  rewrite firstn_all, drop_all in Hflush.
  pose proof (dispatch_validation_error t (_queue st)
                (set_queue [] (set_flushing true st)) src f Hfn) as Hd.
  simpl calls in Hd. rewrite Hrs, bool_decide_eq_true_2 in Hd by done.
  rewrite Hd in Hflush.
  eexists. split.
  { simpl. rewrite Hflush. unfold _flushQueue. simpl. reflexivity. }
  simpl. split; [done |]. split; [| done].
  intros i it Hi.
  destruct (lookup_lt_is_Some_2 rs i) as [r Hr].
  { rewrite Hlen. by eapply lookup_lt_Some. }
  exists r. split; [done |].
  rewrite (distribute_lookup rs (_queue st) 0 _ i it (wf_nodup _ Hwf) (wf_pending _ Hwf) Hi).
  simpl. by rewrite Hr.
Qed.

(** The scenario [loadMany([1, 2, 3])] with the loader [keys => keys]: one
    call for [[1, 2, 3]], and the three promises fulfilled with 1, 2 and 3. *)
Lemma unlimited_queue_in_one_call_witness :
  ∃ st',
    flush 2 three_loads = Idle st' ∧
    calls st' = [Keys [VNum 1; VNum 2; VNum 3]] ∧
    promises st' !! 0 = Some (Fulfilled (VNum 1)) ∧
    promises st' !! 1 = Some (Fulfilled (VNum 2)) ∧
    promises st' !! 2 = Some (Fulfilled (VNum 3)).
Proof.
  destruct (unlimited_queue_in_one_call three_loads KLoad
              {| promise := 0; key := VNum 1; value := None; type := KLoad |}
              [{| promise := 1; key := VNum 2; value := None; type := KLoad |};
               {| promise := 2; key := VNum 3; value := None; type := KLoad |}]
              "async keys => keys" echo_loader [VNum 1; VNum 2; VNum 3])
    as (st' & Hflush & Hcalls & Hpos & _).
  - apply wf_run, wf_new_state.
  - vm_compute. reflexivity.
  - vm_compute. repeat constructor.
  - intros m Hm. vm_compute in Hm. discriminate.
  - reflexivity.
  - vm_compute. reflexivity.
  - vm_compute. reflexivity.
  - exists st'. split; [exact Hflush |]. split; [exact Hcalls |].
    destruct (Hpos 0 {| promise := 0; key := VNum 1; value := None; type := KLoad |})
      as (r0 & Hr0 & H0); [vm_compute; reflexivity |].
    destruct (Hpos 1 {| promise := 1; key := VNum 2; value := None; type := KLoad |})
      as (r1 & Hr1 & H1); [vm_compute; reflexivity |].
    destruct (Hpos 2 {| promise := 2; key := VNum 3; value := None; type := KLoad |})
      as (r2 & Hr2 & H2); [vm_compute; reflexivity |].
    simpl in Hr0, Hr1, Hr2. injection Hr0 as <-. injection Hr1 as <-. injection Hr2 as <-.
    split; [exact H0 |]. split; [exact H1 | exact H2].
Defined.

(** X11.  The edge values of [maxBatchSize]: with 0 the batch of a turn is
    the whole run of items of the head item's kind, as when the option is
    absent; with 1 or a negative number it is the head item alone. *)
Theorem maxBatchSize_edge_values (st : State) (head : PendingItem) (tl : list PendingItem) :
  _queue st = head :: tl →
  ∃ batch st',
    state_of (_flushQueue st) = Some st' ∧
    _queue st = batch ++ _queue st' ∧
    ((∀ m, maxBatchSize (members (_options st)) = Some m → m = 0%Z) →
     batch = homogeneous_prefix (type head) (_queue st)) ∧
    (∀ m, maxBatchSize (members (_options st)) = Some m → (m < 0 ∨ m = 1)%Z →
          batch = [head]).
Proof.
  intros Hq.
  destruct (scan_head st head tl Hq) as (n & Hscan & Hn & Hone & Hmin).
  destruct (_flushQueue_cases st) as [[Hnil _] | (head' & tl' & Hq' & Hflush)];
    [congruence |].
  rewrite Hq in Hq'. injection Hq' as <- <-. rewrite Hscan in Hflush.
  pose proof (dispatch_frame (type head) (take n (_queue st))
                (set_queue (drop n (_queue st)) (set_flushing true st))) as Hfr.
  pose proof (homogeneous_prefix_length (type head) (_queue st)) as Hlen.
  assert (1 ≤ length (_queue st)) as Hpos by (rewrite Hq; simpl; lia).
  exists (take n (_queue st)).
  assert (((∀ m, maxBatchSize (members (_options st)) = Some m → m = 0%Z) →
           take n (_queue st) = homogeneous_prefix (type head) (_queue st)) ∧
          (∀ m, maxBatchSize (members (_options st)) = Some m → (m < 0 ∨ m = 1)%Z →
                take n (_queue st) = [head])) as [Hzero Hsmall].
  { split.
    - intros Hmax.
      assert (effectiveMax st = Z.of_nat (length (_queue st))) as HM.
      { unfold effectiveMax.
        destruct (maxBatchSize (members (_options st))) as [m |] eqn:Hm; [| done].
        by rewrite (Hmax m eq_refl). }
      rewrite HM in Hmin. rewrite (homogeneous_prefix_take (type head) (_queue st)) at 1.
      f_equal. rewrite Hmin; lia.
    - intros m Hm Hsmall.
      assert (effectiveMax st = Z.min m (Z.of_nat (length (_queue st)))) as HM.
      { unfold effectiveMax. rewrite Hm. destruct (Z.eqb_spec m 0); [lia | done]. }
      rewrite HM in Hone, Hmin.
      assert (n = 1) as -> by lia. by rewrite Hq. }
  destruct (dispatch _ _ _) as [[e s] | s]; exists s; rewrite Hflush;
    destruct Hfr as (_ & Hqs & _); simpl in Hqs;
    (split; [done |]); (split; [by rewrite Hqs, take_drop | done]).
Qed.

(** Three loads queued with [maxBatchSize: -1]: the turn takes the first
    only. *)
Lemma maxBatchSize_edge_values_witness :
  ∃ st', state_of (_flushQueue (loadMany [VNum 1; VNum 2; VNum 3] (limited (-1))).2) =
           Some st' ∧
         length (_queue st') = 2.
Proof.
  destruct (maxBatchSize_edge_values (loadMany [VNum 1; VNum 2; VNum 3] (limited (-1))).2
              {| promise := 0; key := VNum 1; value := None; type := KLoad |}
              [{| promise := 1; key := VNum 2; value := None; type := KLoad |};
               {| promise := 2; key := VNum 3; value := None; type := KLoad |}])
    as (batch & st' & Hst' & Hsplit & _ & Hsmall); [reflexivity |].
  exists st'. split; [exact Hst' |].
  rewrite (Hsmall (-1)%Z) in Hsplit; [| reflexivity | lia].
  assert (_queue (loadMany [VNum 1; VNum 2; VNum 3] (limited (-1))).2 =
          [{| promise := 0; key := VNum 1; value := None; type := KLoad |};
           {| promise := 1; key := VNum 2; value := None; type := KLoad |};
           {| promise := 2; key := VNum 3; value := None; type := KLoad |}]) as Hq0
    by (vm_compute; reflexivity).
  rewrite Hq0 in Hsplit. simpl in Hsplit. injection Hsplit as <-. reflexivity.
Defined.

(** X12.  When the batch function called for the first batch throws, or
    returns a promise that rejects, the exception leaves the flush loop: the
    loop has made that one call and makes no other, the batch is off the
    queue, every promise that was queued, those of the batch included, is
    still pending, and [_flushing] stays set. *)
Theorem rejected_batch_stops_flush
    (st : State) (head : PendingItem) (tl : list PendingItem)
    (src : string) (f : BatchFn) (e : Value) :
  wf st →
  _queue st = head :: tl →
  batch_fn (type head) st = AFun src f →
  (∀ log arg, f log arg = Rejects e ∨ f log arg = Throws e) →
  ∃ st' batch,
    flush (S (length (_queue st))) st = Crashed (Raised e) st' ∧
    batch ≠ [] ∧ _queue st = batch ++ _queue st' ∧
    calls st' = calls st ++ [batch_arg (type head) batch] ∧
    (∀ it, it ∈ _queue st → promises st' !! promise it = Some Pending) ∧
    _flushing st' = true.
Proof.
  intros Hwf Hq Hfn Hrej.
  destruct (dispatched_batch_same_kind st head tl Hq)
    as (batch & s & Hs & Hflush & Hsplit & Hne & _).
  pose proof (dispatch_validation_error (type head) batch
                (set_queue (drop (length batch) (_queue st)) (set_flushing true st))
                src f Hfn) as Hd.
  simpl calls in Hd.
  assert (dispatch (type head) batch
            (set_queue (drop (length batch) (_queue st)) (set_flushing true st)) =
          inl (Raised e,
               set_calls (calls st ++ [batch_arg (type head) batch])
                 (set_queue (drop (length batch) (_queue st)) (set_flushing true st))))
    as Hd'.
  { destruct (Hrej (calls st) (batch_arg (type head) batch)) as [Hr | Hr];
      by rewrite Hr in Hd. }
  rewrite Hd' in Hflush. rewrite Hflush in Hs. injection Hs as <-.
  eexists _, batch. split; [simpl; by rewrite Hflush |].
  split; [done |]. split; [done |]. split; [done |]. split; [| done].
  intros it Hit. simpl. by apply (wf_pending _ Hwf).
Qed.

(** [load(1)] on a coordinator whose loader rejects: the flush stops, the
    promise of the load stays pending, nothing is scheduled. *)
Lemma rejected_batch_stops_flush_witness :
  ∃ st',
    flush 2 (load (VNum 1)
               (load_only "async () => { throw new Error('down') }" rejecting_loader)).2 =
      Crashed (Raised (VError "down")) st' ∧
    promises st' !! 0 = Some Pending ∧ _flushing st' = true.
Proof.
  destruct (rejected_batch_stops_flush
              (load (VNum 1)
                 (load_only "async () => { throw new Error('down') }" rejecting_loader)).2
              {| promise := 0; key := VNum 1; value := None; type := KLoad |} []
              "async () => { throw new Error('down') }" rejecting_loader (VError "down"))
    as (st' & batch & Hflush & _ & _ & _ & Hpend & Hfl).
  - apply wf_load, wf_new_state.
  - reflexivity.
  - reflexivity.
  - intros log arg. by left.
  - exists st'. split; [exact Hflush |]. split; [| exact Hfl].
    apply (Hpend {| promise := 0; key := VNum 1; value := None; type := KLoad |}).
    vm_compute. by left.
Defined.



(** X14.  A [save] invalidates by cache key, not by key: with caching on,
    after [save(k2, v)] a [load(k1)] whose cache key has the same property
    name as that of [k2] (the same key, a key that [cacheKeyFn] maps to the
    same cache key, or the number 1 and the string ['1']) is queued anew and
    returns a new promise, different from every promise the cache held,
    provided the name is not one of [Object.prototype]. *)
Theorem save_invalidates_by_cache_key (st : State) (k1 k2 v : Value) :
  wf st →
  shouldCache st = true →
  to_string (cacheKey_of st k1) = to_string (cacheKey_of st k2) →
  to_string (cacheKey_of st k1) ∉ Object_prototype →
  ∃ st1 st2,
    save k2 v st = (fresh st, st1) ∧
    load k1 st1 = (Promise (S (fresh st)), st2) ∧
    _queue st2 = _queue st ++
      [{| promise := fresh st; key := k2; value := Some v; type := KSave |};
       {| promise := S (fresh st); key := k1; value := None; type := KLoad |}] ∧
    (∀ name p, _loadCache st !! name = Some p → p ≠ S (fresh st)) ∧
    _loadCache st2 !! to_string (cacheKey_of st k1) = Some (S (fresh st)).
Proof.
  intros Hwf Hc Hsame Hin.
  destruct (save_spec st k2 v) as (st1 & Hsave & Hq1 & Hl1 & _ & Hf1 & Ho1 & _).
  destruct (load_miss st1 k1) as (st2 & Hload & Hq2 & Hl2 & _).
  - by rewrite (shouldCache_options _ _ Ho1).
  - rewrite (cacheKey_of_options _ _ _ Ho1), Hl1, Hsame. apply lookup_delete_eq.
  - by rewrite (cacheKey_of_options _ _ _ Ho1).
  - exists st1, st2. rewrite Hf1 in Hload, Hq2, Hl2.
    rewrite (cacheKey_of_options _ _ _ Ho1) in Hl2.
    split; [done |]. split; [done |].
    split; [by rewrite Hq2, Hq1, <- app_assoc |].
    split; [| rewrite Hl2; apply lookup_insert_eq].
    intros name p Hp. apply (wf_cache _ Hwf) in Hp. lia.
Qed.

(** [load('1')], then [save(1, 'new')], then [load('1')] again on the
    coordinator of the tests: the second load gets promise 2, not promise 0. *)
Lemma save_invalidates_by_cache_key_witness :
  ∃ st1 st2,
    save (VNum 1) (VStr "new") (load (VStr "1") load_save).2 = (1, st1) ∧
    load (VStr "1") st1 = (Promise 2, st2).
Proof.
  destruct (save_invalidates_by_cache_key (load (VStr "1") load_save).2
              (VStr "1") (VNum 1) (VStr "new"))
    as (st1 & st2 & Hsave & Hload & _).
  - apply wf_load, wf_new_state.
  - reflexivity.
  - reflexivity.
  - vm_compute. intros Hin. apply list_elem_of_In in Hin. simpl in Hin.
    repeat (destruct Hin as [Hin | Hin]; [discriminate Hin |]). exact Hin.
  - exists st1, st2. split; [exact Hsave | exact Hload].
Defined.
